(** * Session synchronisation of the voxel puzzle: server store and client mirror

    A shallow embedding of the authoritative session store (the WebSocket
    server's [MOVE_PIECE] and [MERGE_GROUP] handlers) and of the client
    store (the zustand store: message handlers, [setPuzzleRegions],
    [dragStart], [dragMove], [dragEnd]), followed by the properties of the
    grouping model, the broadcast rule, snap detection and reconciliation.

    JavaScript numbers are IEEE 754 binary64 values: they are modelled by
    Rocq's primitive floats, so [+], [-], [*], [sqrt] and [<] below are the
    operations the program runs. *)

From Stdlib Require Import Floats Ascii.
From stdpp Require Import gmap strings list.

Set Default Proof Using "Type".
(* stdpp's solvers clear hypotheses that may already be gone. *)
Set Warnings "-clear-no-such-hyp".

(* ================================================================== *)
(** ** Data model *)
(* ================================================================== *)

(** A position or an offset: the three-element array [[x, y, z]]. *)
Record Vec3 := mkVec3 { c0 : float; c1 : float; c2 : float }.

(** [[p[0] + o[0], p[1] + o[1], p[2] + o[2]]] *)
Definition translate (p o : Vec3) : Vec3 :=
  mkVec3 (c0 p + c0 o) (c1 p + c1 o) (c2 p + c2 o).

(** [position[1] = 0] *)
Definition floor_y (p : Vec3) : Vec3 := mkVec3 (c0 p) 0 (c2 p).

(** [PieceState]: [{ id, position, groupId, isSolved }]. *)
Record PieceState := mkPieceState {
  id : string;
  position : Vec3;
  groupId : string;
  isSolved : bool
}.

(** [{ ...p, position: pos }] *)
Definition with_position (pos : Vec3) (p : PieceState) : PieceState :=
  mkPieceState (id p) pos (groupId p) (isSolved p).

(** [{ ...p, groupId: g, position: pos }] *)
Definition with_group_position (g : string) (pos : Vec3) (p : PieceState)
  : PieceState :=
  mkPieceState (id p) pos g (isSolved p).

(** [p.isSolved = true; p.position[1] = 0] *)
Definition solve (p : PieceState) : PieceState :=
  mkPieceState (id p) (floor_y (position p)) (groupId p) true.

(** The part of a [Region] the store reads: its id and its centroid. *)
Record Center := mkCenter { cx : float; cy : float }.
Record Region := mkRegion { rid : string; center : Center }.

(** The messages that carry piece state. *)
Inductive ClientMessage :=
  | MOVE_PIECE (pieceId : string) (pos : Vec3)
  | MERGE_GROUP (sourceGroupId targetGroupId : string) (alignOffset : Vec3).

(** [PIECE_MOVED_NO_GROUP] is the [PIECE_MOVED] message whose [groupId] is
    [undefined]: [JSON.stringify] leaves the field out. *)
Inductive ServerMessage :=
  | PIECE_MOVED (pieceId : string) (pos : Vec3) (group : string)
  | PIECE_MOVED_NO_GROUP (pieceId : string) (pos : Vec3)
  | GROUP_MERGED (sourceGroupId targetGroupId : string) (alignOffset : Vec3)
  | GAME_COMPLETED.

(** Truthiness of a [string | null] value: [null] and the empty string are
    falsy. *)
Definition truthy (o : option string) : bool :=
  match o with
  | Some s => negb (String.eqb s "")
  | None => false
  end.

(* ================================================================== *)
(** ** JavaScript objects used as records keyed by piece id *)
(* ================================================================== *)

(** The names a plain object inherits from [Object.prototype]: for these
    [o[k]] is a function (for [__proto__], the prototype), hence truthy,
    also when [o] has no entry under [k]. *)
Definition inherited (k : string) : bool :=
  bool_decide (k ∈ ["constructor"; "__defineGetter__"; "__defineSetter__";
                    "hasOwnProperty"; "__lookupGetter__"; "__lookupSetter__";
                    "isPrototypeOf"; "propertyIsEnumerable"; "toString";
                    "valueOf"; "__proto__"; "toLocaleString"]).

(** The handlers write a piece's [position] onto what [o[k]] gives.  For
    [k] the name [__proto__] that is [Object.prototype] itself, and from
    then on [position] is inherited as well: [surely_own] holds of the
    names that are inherited in no run. *)
Definition surely_own (k : string) : bool :=
  negb (inherited k) && negb (String.eqb k "position").

(** An object [Record<string, V>] is represented by its entries in
    enumeration order, one entry per key.  Piece ids are [region_<n>] or
    [fb_<n>], never array indices, so a fresh key is enumerated last.
    [get] reads an entry of the object itself; where the program tests
    [o[k]] for a key a peer chooses, the names of [inherited] are told
    apart at that place. *)
Section JsObject.
Context {V : Type}.

(** [o[k]] *)
Fixpoint get (o : list (string * V)) (k : string) : option V :=
  match o with
  | [] => None
  | (k', v) :: rest => if decide (k = k') then Some v else get rest k
  end.

(** [o[k] = v]: overwrites in place, or adds the key at the end. *)
Fixpoint put (k : string) (v : V) (o : list (string * V))
  : list (string * V) :=
  match o with
  | [] => [(k, v)]
  | (k', v') :: rest =>
      if decide (k = k') then (k', v) :: rest else (k', v') :: put k v rest
  end.

(** [o[k].field = ...]: a mutation of the object stored under [k];
    [None] is the [TypeError] raised when [o[k]] is [undefined]. *)
Fixpoint mutate (k : string) (f : V → V) (o : list (string * V))
  : option (list (string * V)) :=
  match o with
  | [] => None
  | (k', v) :: rest =>
      if decide (k = k') then Some ((k', f v) :: rest)
      else cons (k', v) <$> mutate k f rest
  end.

(** [Object.keys(o)] and [Object.values(o)] *)
Definition keys (o : list (string * V)) : list string := o.*1.
Definition values (o : list (string * V)) : list V := o.*2.

(** [Object.values(o).forEach(p => ...)] where the body mutates [p]
    itself: every stored object is updated where it stands. *)
Definition update_values (f : V → V) (o : list (string * V))
  : list (string * V) :=
  (λ kv, (kv.1, f kv.2)) <$> o.

(** Every value is stored under the key [kf] reads off it, one entry per
    key. *)
Definition own_keys (kf : V → string) (o : list (string * V)) : Prop :=
  NoDup (keys o) ∧ Forall (λ kv, kf kv.2 = kv.1) o.
End JsObject.

Abbreviation Store := (list (string * PieceState)).

(** [new Set(Object.values(states).map(p => p.groupId))] *)
Definition uniqueGroups (st : Store) : gset string :=
  list_to_set (groupId <$> values st).

(** Every piece state is stored under its own id, one entry per key. *)
Definition wf_store (st : Store) : Prop := own_keys id st.

(* ================================================================== *)
(** ** The session store (server) *)
(* ================================================================== *)

Module Server.

(** A connection: its identity and the socket's [readyState]. *)
Record Conn := mkConn { conn_id : nat; readyState : nat }.

Definition OPEN : nat := 1.

(** [client !== ws] *)
Definition same_conn (a b : Conn) : bool := Nat.eqb (conn_id a) (conn_id b).

Definition is_open (c : Conn) : bool := Nat.eqb (readyState c) OPEN.

(** The part of a session the two handlers read and write. *)
Record Session := mkSession {
  players : list Conn;
  pieceStates : Store
}.

(** One [client.send(...)] *)
Definition Outbox := list (Conn * ServerMessage).

(** The state stored under [pieceId] once a [MOVE_PIECE] is applied.
    [!session.pieceStates[msg.pieceId]] holds when the store has no entry
    under the id and the id is no inherited name.  For an inherited name
    without an entry the [else] branch writes [.position] onto the
    inherited member: no state is stored, [None].  The inherited names
    are those of a server whose [Object.prototype] has not been written
    to. *)
Definition moved_state (pieceId : string) (pos : Vec3) (st : Store)
  : option PieceState :=
  match get st pieceId with
  | Some p => Some (with_position pos p)
  | None =>
      if inherited pieceId then None
      else Some (mkPieceState pieceId pos pieceId false)
  end.

Definition move_piece (pieceId : string) (pos : Vec3) (st : Store) : Store :=
  match moved_state pieceId pos st with
  | Some p => put pieceId p st
  | None => st
  end.

(** The message relayed: [groupId] is read from
    [session.pieceStates[msg.pieceId]] after the update; an inherited
    member has none. *)
Definition moved_message (pieceId : string) (pos : Vec3) (st : Store)
  : ServerMessage :=
  match moved_state pieceId pos st with
  | Some p => PIECE_MOVED pieceId pos (groupId p)
  | None => PIECE_MOVED_NO_GROUP pieceId pos
  end.

(** [if (msg.type === 'MOVE_PIECE' && currentSessionId)] for a connection
    [ws] that has joined session [s]. *)
Definition handle_MOVE_PIECE (ws : Conn) (pieceId : string) (pos : Vec3)
    (s : Session) : Session * Outbox :=
  let st' := move_piece pieceId pos (pieceStates s) in
  let moved := moved_message pieceId pos (pieceStates s) in
  (mkSession (players s) st',
   (λ client, (client, moved)) <$>
     filter (λ client, negb (same_conn client ws) && is_open client = true)
            (players s)).

(** The body of the [forEach] of the merge.  Every stored state is an
    object of its own (each is created by one [MOVE_PIECE]), so mutating
    [p] changes the one entry that holds it. *)
Definition relabel (sourceGroupId targetGroupId : string)
    (alignOffset : Vec3) (p : PieceState) : PieceState :=
  if decide (groupId p = sourceGroupId)
  then with_group_position targetGroupId
         (translate (position p) alignOffset) p
  else p.

Definition merge (sourceGroupId targetGroupId : string)
    (alignOffset : Vec3) (st : Store) : Store :=
  update_values (relabel sourceGroupId targetGroupId alignOffset) st.

(** [if (msg.type === 'MERGE_GROUP' && currentSessionId)] *)
Definition handle_MERGE_GROUP (ws : Conn)
    (sourceGroupId targetGroupId : string) (alignOffset : Vec3)
    (s : Session) : Session * Outbox :=
  (mkSession (players s)
     (merge sourceGroupId targetGroupId alignOffset (pieceStates s)),
   (λ client,
      (client, GROUP_MERGED sourceGroupId targetGroupId alignOffset)) <$>
     filter (λ client, is_open client = true) (players s)).

Definition handle (ws : Conn) (msg : ClientMessage) (s : Session)
  : Session * Outbox :=
  match msg with
  | MOVE_PIECE pieceId pos => handle_MOVE_PIECE ws pieceId pos s
  | MERGE_GROUP a b off => handle_MERGE_GROUP ws a b off s
  end.

(** A sequence of merges applied in the order received. *)
Definition merges (ms : list (string * string * Vec3)) (st : Store) : Store :=
  foldl (λ acc m, merge m.1.1 m.1.2 m.2 acc) st ms.

End Server.

(* ================================================================== *)
(** ** The client store *)
(* ================================================================== *)

Module Client.

(** The part of the store's state that the puzzle actions and the
    message handlers read and write. *)
Record State := mkState {
  puzzleRegions : list Region;
  pieceStates : Store;
  draggedPieceId : option string;
  snapCandidateGroupId : option string
}.

Definition set_pieceStates (st : Store) (c : State) : State :=
  mkState (puzzleRegions c) st (draggedPieceId c) (snapCandidateGroupId c).

Definition SNAP_DISTANCE : float := 4.0.

(** [puzzleRegions.find(r => r.id === k)] *)
Definition find_region (regions : list Region) (k : string)
  : option Region :=
  List.find (λ r, String.eqb (rid r) k) regions.

(** [if (puzzleRegions.find(reg => reg.id === k))] *)
Definition has_region (regions : list Region) (k : string) : bool :=
  match find_region regions k with
  | Some _ => true
  | None => false
  end.

(** *** Message handlers of [initSocket] *)

(** [case 'PIECE_MOVED'].  [if (newStates[msg.pieceId])] is read as "the
    mirror holds the piece", which it is for every piece id that is no
    inherited name. *)
Definition on_PIECE_MOVED (pieceId : string) (pos : Vec3) (group : string)
    (c : State) : State :=
  if decide (draggedPieceId c = Some pieceId) then c
  else
    set_pieceStates
      match get (pieceStates c) pieceId with
      | Some p => put pieceId (with_group_position group pos p) (pieceStates c)
      | None => pieceStates c
      end c.

(** [case 'PIECE_MOVED'] for a message without [groupId].  A piece the
    mirror holds gets [groupId: undefined], and an inherited name gets an
    entry made of the inherited member: either way the mirror is no
    record of piece states any more, [None]. *)
Definition on_PIECE_MOVED_NO_GROUP (pieceId : string) (pos : Vec3)
    (c : State) : option State :=
  if decide (draggedPieceId c = Some pieceId) then Some c
  else
    match get (pieceStates c) pieceId with
    | Some _ => None
    | None =>
        if inherited pieceId then None
        else Some (set_pieceStates (pieceStates c) c)
    end.

(** The merge logic of [case 'GROUP_MERGED']: [sourcePieces] is computed
    first, then each of them is written back under its own id. *)
Definition merge_source (sourceGroupId targetGroupId : string)
    (alignOffset : Vec3) (st : Store) : Store :=
  let sourcePieces :=
    filter (λ p, groupId p = sourceGroupId) (values st) in
  foldl (λ newStates p,
           put (id p)
             (with_group_position targetGroupId
                (translate (position p) alignOffset) p)
             newStates)
        st sourcePieces.

(** [Object.values(newStates).forEach(p => { newStates[p.id].isSolved =
    true; newStates[p.id].position[1] = 0; })] *)
Definition complete_all (st : Store) : option Store :=
  foldl (λ newStates p, newStates ≫= mutate (id p) solve)
        (Some st) (values st).

(** The completion check that follows a merge. *)
Definition check_completion (st : Store) : option Store :=
  if decide (size (uniqueGroups st) = 1) then complete_all st else Some st.

(** [case 'GROUP_MERGED']; [None] when the handler throws. *)
Definition on_GROUP_MERGED (sourceGroupId targetGroupId : string)
    (alignOffset : Vec3) (c : State) : option State :=
  st ← check_completion
         (merge_source sourceGroupId targetGroupId alignOffset
            (pieceStates c));
  Some (set_pieceStates st c).

(** [case 'GAME_COMPLETED'] *)
Definition on_GAME_COMPLETED (c : State) : option State :=
  st ← complete_all (pieceStates c);
  Some (set_pieceStates st c).

(** The subscriber of [initSocket], for the messages that carry piece
    state. *)
Definition on_message (msg : ServerMessage) (c : State) : option State :=
  match msg with
  | PIECE_MOVED pieceId pos g => Some (on_PIECE_MOVED pieceId pos g c)
  | PIECE_MOVED_NO_GROUP pieceId pos => on_PIECE_MOVED_NO_GROUP pieceId pos c
  | GROUP_MERGED a b off => on_GROUP_MERGED a b off c
  | GAME_COMPLETED => on_GAME_COMPLETED c
  end.

(** A sequence of [GROUP_MERGED] messages handled in the order
    received. *)
Definition merges (ms : list (string * string * Vec3)) (c : State)
  : option State :=
  foldl (λ acc m, acc ≫= on_GROUP_MERGED m.1.1 m.1.2 m.2) (Some c) ms.

(** *** [setPuzzleRegions] *)

Section Scatter.
(** [Math.sin] and [Math.floor] *)
Variable Math_sin Math_floor : float → float.

(** [config.scatterSeed[index % config.scatterSeed.length]]: with an
    empty seed the index is [NaN] and the element [undefined], which
    the addition that follows turns into [NaN]. *)
Definition seed_at (scatterSeed : list float) (index : nat) : float :=
  match scatterSeed with
  | [] => nan
  | _ => nth (index mod length scatterSeed) scatterSeed nan
  end.

Definition pseudoRandom (scatterSeed : list float) (index : nat)
    (offset : float) : float :=
  let x := (Math_sin (seed_at scatterSeed index + offset) * 10000)%float in
  (x - Math_floor x)%float.

(** The spawn state of the region at [index]. *)
Definition spawn (scatterSeed : list float) (index : nat) (r : Region)
  : PieceState :=
  let range := 60%float in
  let scatterX := ((pseudoRandom scatterSeed index 1 - 0.5) * range)%float in
  let scatterY := (10 + pseudoRandom scatterSeed index 2 * 15)%float in
  let scatterZ := ((pseudoRandom scatterSeed index 3 - 0.5) * range)%float in
  mkPieceState (rid r) (mkVec3 scatterX scatterY scatterZ) (rid r) false.

(** The body of [regions.forEach((r, index) => ...)]. *)
Definition init_region (scatterSeed : list float)
    (currentServerStates : Store) (states : Store) (index : nat)
    (r : Region) : Store :=
  let hasServerState := bool_decide (0 < length (keys currentServerStates)) in
  match get currentServerStates (rid r) with
  | Some ps =>
      if hasServerState then put (rid r) ps states
      else put (rid r) (spawn scatterSeed index r) states
  | None => put (rid r) (spawn scatterSeed index r) states
  end.

Fixpoint init_regions (scatterSeed : list float)
    (currentServerStates : Store) (states : Store) (index : nat)
    (regions : list Region) : Store :=
  match regions with
  | [] => states
  | r :: rest =>
      init_regions scatterSeed currentServerStates
        (init_region scatterSeed currentServerStates states index r)
        (S index) rest
  end.

Definition setPuzzleRegions (regions : list Region)
    (scatterSeed : list float) (currentServerStates : Store) (c : State)
  : State :=
  mkState regions
    (init_regions scatterSeed currentServerStates [] 0 regions)
    (draggedPieceId c) (snapCandidateGroupId c).
End Scatter.

(** *** Drag actions *)

Definition dragStart (pieceId : string) (c : State) : State :=
  mkState (puzzleRegions c) (pieceStates c) (Some pieceId)
    (snapCandidateGroupId c).

(** Step 1 of [dragMove]: every piece of the active group is moved and a
    [MOVE_PIECE] is sent for it. *)
Definition move_group (activeGroupId : string) (delta : Vec3) (st : Store)
  : Store * list ClientMessage :=
  foldl (λ acc piece,
           if decide (groupId piece = activeGroupId) then
             let newPos := translate (position piece) delta in
             (put (id piece) (with_position newPos piece) acc.1,
              acc.2 ++ [MOVE_PIECE (id piece) newPos])
           else acc)
        (st, []) (values st).

(** [Math.sqrt(Math.pow(currentDiffX - idealDiffX, 2) +
    Math.pow(currentDiffZ - idealDiffY, 2))]; the square is the rounded
    product. *)
Definition snap_dist (regionMover regionTarget : Region)
    (mover target : PieceState) : float :=
  let idealDiffX := (cx (center regionMover) - cx (center regionTarget))%float in
  let idealDiffY := (cy (center regionMover) - cy (center regionTarget))%float in
  let currentDiffX := (c0 (position mover) - c0 (position target))%float in
  let currentDiffZ := (c2 (position mover) - c2 (position target))%float in
  let dx := (currentDiffX - idealDiffX)%float in
  let dz := (currentDiffZ - idealDiffY)%float in
  PrimFloat.sqrt (dx * dx + dz * dz).

(** The inner loop [for (const target of otherPieces)]: the group of the
    first target within snap distance, if any. *)
Fixpoint scan_targets (regions : list Region) (regionMover : Region)
    (mover : PieceState) (otherPieces : list PieceState) : option string :=
  match otherPieces with
  | [] => None
  | target :: rest =>
      match find_region regions (id target) with
      | None => scan_targets regions regionMover mover rest
      | Some regionTarget =>
          if PrimFloat.ltb (snap_dist regionMover regionTarget mover target)
               SNAP_DISTANCE
          then Some (groupId target)
          else scan_targets regions regionMover mover rest
      end
  end.

(** The outer loop [for (const mover of movingPieces)], entered with the
    current value of [snapCandidate]. *)
Fixpoint scan_movers (regions : list Region) (otherPieces : list PieceState)
    (snapCandidate : option string) (movingPieces : list PieceState)
  : option string :=
  match movingPieces with
  | [] => snapCandidate
  | mover :: rest =>
      if truthy snapCandidate then snapCandidate
      else
        match find_region regions (id mover) with
        | None => scan_movers regions otherPieces snapCandidate rest
        | Some regionMover =>
            match scan_targets regions regionMover mover otherPieces with
            | Some g => scan_movers regions otherPieces (Some g) rest
            | None => scan_movers regions otherPieces snapCandidate rest
            end
        end
  end.

(** Step 2 of [dragMove]. *)
Definition detect_snap (regions : list Region) (activeGroupId : string)
    (newStates : Store) : option string :=
  let movingPieces :=
    filter (λ p, groupId p = activeGroupId) (values newStates) in
  let otherPieces :=
    filter (λ p, groupId p ≠ activeGroupId) (values newStates) in
  scan_movers regions otherPieces None movingPieces.

(** [dragMove(delta)]: the new state and the messages sent; [None] when
    [pieceStates[draggedPieceId]] is [undefined]. *)
Definition dragMove (delta : Vec3) (c : State)
  : option (State * list ClientMessage) :=
  if truthy (draggedPieceId c) then
    d ← draggedPieceId c;
    dragged ← get (pieceStates c) d;
    let activeGroupId := groupId dragged in
    let moved := move_group activeGroupId delta (pieceStates c) in
    Some (mkState (puzzleRegions c) moved.1 (draggedPieceId c)
            (detect_snap (puzzleRegions c) activeGroupId moved.1),
          moved.2)
  else Some (c, []).

(** The alignment offset of [dragEnd]: the inner loop over
    [targetPieces] for one mover, whose region [rMover] may be missing. *)
Fixpoint align_targets (regions : list Region) (rMover : option Region)
    (mover : PieceState) (targetPieces : list PieceState) : option Vec3 :=
  match targetPieces with
  | [] => None
  | target :: rest =>
      match rMover, find_region regions (id target) with
      | Some rm, Some rTarget =>
          let idealX :=
            (c0 (position target) + (cx (center rm) - cx (center rTarget)))%float in
          let idealZ :=
            (c2 (position target) + (cy (center rm) - cy (center rTarget)))%float in
          let idealY := c1 (position target) in
          Some (mkVec3 (idealX - c0 (position mover))
                       (idealY - c1 (position mover))
                       (idealZ - c2 (position mover)))
      | _, _ => align_targets regions rMover mover rest
      end
  end.

(** The outer loop: [offset] and [foundRef] as one value, [None] while no
    reference pair has been found. *)
Fixpoint align_movers (regions : list Region)
    (targetPieces : list PieceState) (found : option Vec3)
    (movingPieces : list PieceState) : option Vec3 :=
  match movingPieces with
  | [] => found
  | mover :: rest =>
      match found with
      | Some _ => found
      | None =>
          align_movers regions targetPieces
            (align_targets regions (find_region regions (id mover)) mover
               targetPieces)
            rest
      end
  end.

Definition align_offset (regions : list Region)
    (movingPieces targetPieces : list PieceState) : Vec3 :=
  default (mkVec3 0 0 0)
    (align_movers regions targetPieces None movingPieces).

(** "Apply merge locally" *)
Definition merge_local (snapCandidate : string) (offset : Vec3)
    (movingPieces : list PieceState) (st : Store) : Store :=
  foldl (λ newStates p,
           put (id p)
             (with_group_position snapCandidate
                (translate (position p) offset) p)
             newStates)
        st movingPieces.

(** "Check Completion" of [dragEnd]: the pieces of the one remaining
    group that have a region are floored and marked solved. *)
Definition complete_final (regions : list Region) (st : Store)
  : option Store :=
  if decide (size (uniqueGroups st) = 1) then
    let finalPieces :=
      match head (groupId <$> values st) with
      | Some finalGroupId =>
          filter (λ p, groupId p = finalGroupId) (values st)
      | None => []
      end in
    foldl (λ newStates p,
             if has_region regions (id p)
             then newStates ≫= mutate (id p) solve
             else newStates)
          (Some st) finalPieces
  else Some st.

(** [dragEnd()] *)
Definition dragEnd (c : State) : option (State * list ClientMessage) :=
  if truthy (draggedPieceId c) then
    if truthy (snapCandidateGroupId c) then
      d ← draggedPieceId c;
      snapCandidate ← snapCandidateGroupId c;
      dragged ← get (pieceStates c) d;
      let activeGroupId := groupId dragged in
      let movingPieces :=
        filter (λ p, groupId p = activeGroupId) (values (pieceStates c)) in
      let targetPieces :=
        filter (λ p, groupId p = snapCandidate) (values (pieceStates c)) in
      let offset := align_offset (puzzleRegions c) movingPieces targetPieces in
      let newStates :=
        merge_local snapCandidate offset movingPieces (pieceStates c) in
      st ← complete_final (puzzleRegions c) newStates;
      Some (mkState (puzzleRegions c) st None None,
            [MERGE_GROUP activeGroupId snapCandidate offset])
    else Some (mkState (puzzleRegions c) (pieceStates c) None None, [])
  else Some (c, []).

(** The completion flag the game view derives from the store:
    [!loading && puzzleRegions.length > 0 && uniqueGroups.size === 1 &&
    Object.values(pieceStates)[0].isSolved]. *)
Definition isComplete (loading : bool) (c : State) : bool :=
  negb loading
  && bool_decide (0 < length (puzzleRegions c))
  && bool_decide (size (uniqueGroups (pieceStates c)) = 1)
  && match head (values (pieceStates c)) with
     | Some p => isSolved p
     | None => false
     end.

End Client.

(* ================================================================== *)
(** ** The registry of sessions (server) *)
(* ================================================================== *)

Module Registry.

(** [createSessionConfig()] *)
Record SessionConfig := mkSessionConfig {
  randomFactor : float;
  scatterSeed : list float
}.

(** A session as the server stores it; [core] holds its [players] and
    [pieceStates], the part the intent handlers work on. *)
Record SessionData := mkSessionData {
  session_id : string;
  mapId : string;
  difficulty : string;
  core : Server.Session;
  config : SessionConfig;
  startTime : float;
  status : string
}.

Definition with_core (k : Server.Session) (s : SessionData) : SessionData :=
  mkSessionData (session_id s) (mapId s) (difficulty s) k (config s)
    (startTime s) (status s).

(** An entry of the session list. *)
Record SessionStatus := mkSessionStatus {
  st_sessionId : string;
  st_mapId : string;
  st_difficulty : string;
  activePlayers : nat;
  st_status : string;
  st_startTime : float
}.

Definition summary (s : SessionData) : SessionStatus :=
  mkSessionStatus (session_id s) (mapId s) (difficulty s)
    (length (Server.players (core s))) (status s) (startTime s).

(** What the server sends. *)
Inductive Message :=
  | SESSION_LIST (sessions : list SessionStatus)
  | SESSION_JOINED (session : SessionStatus) (cfg : SessionConfig)
      (currentStates : Store)
  | DELTA (msg : ServerMessage).

Abbreviation Sessions := (list (string * SessionData)).

(** What the environment supplies when a session is created:
    [generateId()], [createSessionConfig()] and [Date.now()]. *)
Record Fresh := mkFresh {
  fresh_id : string;
  fresh_config : SessionConfig;
  now : float
}.

(** [players.add(ws)] and [players.delete(ws)] on the [Set] of
    connections. *)
Definition set_add (ws : Server.Conn) (players : list Server.Conn)
  : list Server.Conn :=
  if existsb (Server.same_conn ws) players then players else players ++ [ws].

Definition set_delete (ws : Server.Conn) (players : list Server.Conn)
  : list Server.Conn :=
  filter (λ client, Server.same_conn client ws = false) players.

Definition add_player (ws : Server.Conn) (s : SessionData) : SessionData :=
  with_core
    (Server.mkSession (set_add ws (Server.players (core s)))
       (Server.pieceStates (core s))) s.

Definition delete_player (ws : Server.Conn) (s : SessionData) : SessionData :=
  with_core
    (Server.mkSession (set_delete ws (Server.players (core s)))
       (Server.pieceStates (core s))) s.

(** [broadcastList()]: the list goes to every open connection of the
    server, [clients] being [wss.clients]. *)
Definition broadcastList (clients : list Server.Conn) (sessions : Sessions)
  : list (Server.Conn * Message) :=
  (λ client, (client, SESSION_LIST (summary <$> values sessions))) <$>
    filter (λ client, Server.is_open client = true) clients.

(** [s.mapId === mapId && s.difficulty === difficulty] *)
Definition matches (m d : string) (s : SessionData) : bool :=
  String.eqb (mapId s) m && String.eqb (difficulty s) d.

(** [Object.values(sessions).find(...)] followed by
    [session.players.add(ws)]: the session found is updated where it is
    stored. *)
Fixpoint join_existing (ws : Server.Conn) (m d : string)
    (sessions : Sessions) : option (SessionData * Sessions) :=
  match sessions with
  | [] => None
  | (k, s) :: rest =>
      if matches m d s
      then Some (add_player ws s, (k, add_player ws s) :: rest)
      else (λ r : SessionData * Sessions, (r.1, (k, s) :: r.2)) <$>
             join_existing ws m d rest
  end.

(** [if (msg.type === 'JOIN_SESSION')]: the sessions, the connection's
    [currentSessionId] and the messages sent. *)
Definition JOIN_SESSION (ws : Server.Conn) (clients : list Server.Conn)
    (env : Fresh) (m d : string) (sessions : Sessions)
  : Sessions * option string * list (Server.Conn * Message) :=
  let joined :=
    match join_existing ws m d sessions with
    | Some r => r
    | None =>
        let session :=
          add_player ws
            (mkSessionData (fresh_id env) m d (Server.mkSession [] [])
               (fresh_config env) (now env) "active") in
        (session, put (fresh_id env) session sessions)
    end in
  (joined.2, Some (session_id joined.1),
   (ws, SESSION_JOINED (summary joined.1) (config joined.1)
          (Server.pieceStates (core joined.1)))
   :: broadcastList clients joined.2).

(** [MOVE_PIECE] and [MERGE_GROUP], guarded by [currentSessionId] and
    [if (session)]. *)
Definition on_intent (ws : Server.Conn) (msg : ClientMessage)
    (sessions : Sessions) (currentSessionId : option string)
  : Sessions * list (Server.Conn * Message) :=
  if truthy currentSessionId then
    match currentSessionId ≫= get sessions, currentSessionId with
    | Some session, Some k =>
        let r := Server.handle ws msg (core session) in
        (put k (with_core r.1 session) sessions,
         (λ cm : Server.Conn * ServerMessage, (cm.1, DELTA cm.2)) <$> r.2)
    | _, _ => (sessions, [])
    end
  else (sessions, []).

(** [handleDisconnect()], run on [LEAVE_SESSION] and on [close]. *)
Definition handleDisconnect (ws : Server.Conn) (clients : list Server.Conn)
    (sessions : Sessions) (currentSessionId : option string)
  : Sessions * option string * list (Server.Conn * Message) :=
  if truthy currentSessionId then
    match currentSessionId ≫= get sessions, currentSessionId with
    | Some session, Some k =>
        let sessions' := put k (delete_player ws session) sessions in
        (sessions', None, broadcastList clients sessions')
    | _, _ => (sessions, currentSessionId, [])
    end
  else (sessions, currentSessionId, []).

(** The intents of one connection handled in order. *)
Definition on_intents (ws : Server.Conn) (msgs : list ClientMessage)
    (sessions : Sessions) (currentSessionId : option string) : Sessions :=
  foldl (λ acc msg, (on_intent ws msg acc currentSessionId).1) sessions msgs.

(** The intents of several connections of one session handled in the
    order received. *)
Definition run (msgs : list (Server.Conn * ClientMessage))
    (s : Server.Session) : Server.Session :=
  foldl (λ acc m, (Server.handle m.1 m.2 acc).1) s msgs.

(** There is at most one session for a map and a difficulty, and every
    session is stored under its id. *)
Definition wf_sessions (sessions : Sessions) : Prop :=
  own_keys session_id sessions
  ∧ NoDup ((λ s, (mapId s, difficulty s)) <$> values sessions).

End Registry.

(* ================================================================== *)
(** ** Colours of the image processor *)
(* ================================================================== *)

Module ImageProcessor.

(** [ToInt32], applied to the operands and the result of [<<]. *)
Definition int32 (z : Z) : Z :=
  (Z.modulo (z + 2147483648) 4294967296 - 2147483648)%Z.

(** [x << n] for a shift count [0 <= n < 32]. *)
Definition shl (x n : Z) : Z := int32 (Z.shiftl (int32 x) n).

Definition hex_digit (d : Z) : ascii :=
  match d with
  | 0 => "0" | 1 => "1" | 2 => "2" | 3 => "3" | 4 => "4" | 5 => "5"
  | 6 => "6" | 7 => "7" | 8 => "8" | 9 => "9" | 10 => "a" | 11 => "b"
  | 12 => "c" | 13 => "d" | 14 => "e" | 15 => "f" | _ => "0"
  end%Z%char.

(** The digits of a positive integer in base 16, most significant first,
    put in front of [acc]; [fuel] bounds the number of digits. *)
Fixpoint hex_digits (fuel : nat) (n : Z) (acc : string) : string :=
  match fuel with
  | O => acc
  | S fuel' =>
      if (n =? 0)%Z then acc
      else hex_digits fuel' (Z.div n 16)
             (String (hex_digit (Z.modulo n 16)) acc)
  end.

(** [n.toString(16)] for an integer [n]: no leading zero, a minus sign
    for a negative number. *)
Definition toString16 (n : Z) : string :=
  if (n =? 0)%Z then "0"
  else if (n <? 0)%Z
       then String "-" (hex_digits (S (Z.to_nat (Z.log2 (- n)))) (- n) "")
       else hex_digits (S (Z.to_nat (Z.log2 n))) n "".

(** [s.slice(1)] *)
Definition slice1 (s : string) : string :=
  match s with
  | EmptyString => ""
  | String _ rest => rest
  end.

(** ["#" + ((1 << 24) + (r << 16) + (g << 8) + b).toString(16).slice(1)]
    for integer channels. *)
Definition rgbToHex (r g b : Z) : string :=
  String "#" (slice1 (toString16 (shl 1 24 + shl r 16 + shl g 8 + b)%Z)).

(** The two hexadecimal digits of a byte, zero padded. *)
Definition two_digits (x : Z) : string :=
  String (hex_digit (Z.div x 16)) (String (hex_digit (Z.modulo x 16)) "").

End ImageProcessor.

(* ================================================================== *)
(** ** The wire: [JSON.stringify] on send, [JSON.parse] on receipt *)
(* ================================================================== *)

Module Json.

(** [JSON.parse(JSON.stringify(x))] for a number [x]: NaN and the
    infinities are written as [null], which is no number ([None]); both
    zeros are written as [0]; every other number is written with the
    digits that read back as itself. *)
Definition number (x : float) : option float :=
  if PrimFloat.is_nan x || PrimFloat.is_infinity x then None
  else if PrimFloat.is_zero x then Some 0%float
  else Some x.

(** A position or an offset, element by element. *)
Definition vec (v : Vec3) : option Vec3 :=
  x ← number (c0 v); y ← number (c1 v); z ← number (c2 v);
  Some (mkVec3 x y z).

(** An intent as the server parses it ([socketService.send], then
    [JSON.parse(message.toString())]); strings arrive as sent. *)
Definition intent (m : ClientMessage) : option ClientMessage :=
  match m with
  | MOVE_PIECE pieceId pos => MOVE_PIECE pieceId <$> vec pos
  | MERGE_GROUP a b off => MERGE_GROUP a b <$> vec off
  end.

(** A message of the server as the client parses it ([client.send] of the
    stringified message, then [JSON.parse(event.data)]). *)
Definition delta (m : ServerMessage) : option ServerMessage :=
  match m with
  | PIECE_MOVED pieceId pos g => (λ pos', PIECE_MOVED pieceId pos' g) <$> vec pos
  | PIECE_MOVED_NO_GROUP pieceId pos => PIECE_MOVED_NO_GROUP pieceId <$> vec pos
  | GROUP_MERGED a b off => GROUP_MERGED a b <$> vec off
  | GAME_COMPLETED => Some GAME_COMPLETED
  end.

End Json.

(* ================================================================== *)
(** ** Snap detection as the specification words it *)
(* ================================================================== *)

Module Spec.

(** The offset between the two pieces as placed: mover minus target in
    the horizontal plane, the axes x and z of the scene. *)
Definition placed_offset (mover target : PieceState) : float * float :=
  ((c0 (position mover) - c0 (position target))%float,
   (c2 (position mover) - c2 (position target))%float).

(** The ideal offset: mover centroid minus target centroid in
    segmentation space. *)
Definition ideal_offset (regionMover regionTarget : Region) : float * float :=
  ((cx (center regionMover) - cx (center regionTarget))%float,
   (cy (center regionMover) - cy (center regionTarget))%float).

(** The Euclidean distance between two offsets of the plane. *)
Definition distance (a b : float * float) : float :=
  PrimFloat.sqrt ((a.1 - b.1) * (a.1 - b.1) + (a.2 - b.2) * (a.2 - b.2))%float.

(** The snap error of a (mover, target) pair: the distance between the
    pair's placed offset and its ideal offset; defined when both pieces
    have a region. *)
Definition snap_error (regions : list Region) (mover target : PieceState)
  : option float :=
  regionMover ← Client.find_region regions (id mover);
  regionTarget ← Client.find_region regions (id target);
  Some (distance (placed_offset mover target)
                 (ideal_offset regionMover regionTarget)).

(** A pair is flagged when its snap error is strictly below the
    threshold. *)
Definition flagged (regions : list Region) (pair : PieceState * PieceState)
  : bool :=
  match snap_error regions pair.1 pair.2 with
  | Some err => PrimFloat.ltb err 4.0
  | None => false
  end.

(** The pairs in iteration order: mover pieces, then target pieces. *)
Definition pairs (movers targets : list PieceState)
  : list (PieceState * PieceState) :=
  mover ← movers; pair mover <$> targets.

(** The snap candidate: the group of the target of the first flagged
    pair. *)
Definition first_snap (regions : list Region)
    (movers targets : list PieceState) : option string :=
  (λ pair, groupId pair.2) <$> List.find (flagged regions) (pairs movers targets).

End Spec.

(* ================================================================== *)
(** ** Concrete sessions *)
(* ================================================================== *)

Module Examples.

Definition piece (i g : string) (x y z : float) : PieceState :=
  mkPieceState i (mkVec3 x y z) g false.

(** Four pieces P1..P4, each its own group. *)
Definition four : Store :=
  [("P1", piece "P1" "P1" 0 5 0); ("P2", piece "P2" "P2" 3 5 0);
   ("P3", piece "P3" "P3" 0 5 9); ("P4", piece "P4" "P4" 7 5 7)].

(** Two pieces, each its own group. *)
Definition two : Store :=
  [("P1", piece "P1" "P1" 0 5 0); ("P2", piece "P2" "P2" 3 5 0)].

(** Two pieces already in one group. *)
Definition pair_in_P1 : Store :=
  [("P1", piece "P1" "P1" 0 5 0); ("P2", piece "P2" "P1" 3 5 0)].

(** A one-piece puzzle as spawned. *)
Definition single : Store := [("P1", piece "P1" "P1" 0 5 0)].

(** Two pieces merged into P1, floored and solved. *)
Definition solved_pair : Store :=
  [("P1", mkPieceState "P1" (mkVec3 0 0 0) "P1" true);
   ("P2", mkPieceState "P2" (mkVec3 3 0 0) "P1" true)].

(** Two open connections of one session. *)
Definition alice : Server.Conn := Server.mkConn 1 Server.OPEN.
Definition bob : Server.Conn := Server.mkConn 2 Server.OPEN.

(** A mover M and a target T whose centroids are (2,0) apart; the mover
    is placed [x] to the right of the target. *)
Definition snap_regions : list Region :=
  [mkRegion "M" (mkCenter 2 0); mkRegion "T" (mkCenter 0 0)].

Definition placed (x : float) : Store :=
  [("M", piece "M" "M" x 5 0); ("T", piece "T" "T" 0 5 0)].

(** Movers M1 and M2 of group M, each with a target next to it: T1 next
    to M1 and T2 next to M2.  All centroids coincide. *)
Definition empty_group_regions : list Region :=
  [mkRegion "M1" (mkCenter 0 0); mkRegion "M2" (mkCenter 0 0);
   mkRegion "T1" (mkCenter 0 0); mkRegion "T2" (mkCenter 0 0)].

Definition before_empty_group : Store :=
  [("M1", piece "M1" "M" 0 5 0); ("M2", piece "M2" "M" 100 5 0);
   ("T1", piece "T1" "T1" 1 5 0); ("T2", piece "T2" "T2" 101 5 0)].

(** The same once T1 is merged into the group named by the empty
    string. *)
Definition empty_group_store : Store :=
  [("M1", piece "M1" "M" 0 5 0); ("M2", piece "M2" "M" 100 5 0);
   ("T1", piece "T1" "" 1 5 0); ("T2", piece "T2" "T2" 101 5 0)].

Definition client (st : Store) (dragged : option string) : Client.State :=
  Client.mkState
    ((λ kv, mkRegion kv.1 (mkCenter 0 0)) <$> st) st dragged None.

End Examples.

(** Well-formedness of a store is decidable, so it is checked by
    computation on a concrete store. *)
#[local] Instance wf_store_dec (st : Store) : Decision (wf_store st).
Proof. unfold wf_store, own_keys. apply _. Defined.

Ltac concrete :=
  first [ exact (bool_decide_unpack _ eq_refl)
        | apply (bool_decide_unpack _); vm_compute; reflexivity ].

(** Closes [p ∈ values st] on a concrete store. *)
Ltac member :=
  unfold values; simpl;
  repeat first [ apply list_elem_of_here | apply list_elem_of_further ].

(* ================================================================== *)
(** ** Facts about objects *)
(* ================================================================== *)

Section JsObjectFacts.
Context {V : Type}.
Implicit Types (o : list (string * V)) (k : string) (v : V).

Lemma filter_all {A} (l : list A) : filter (λ _, True) l = l.
Proof.
  induction l as [|x l IH]; [done|]. rewrite filter_cons_True by done.
  by rewrite IH.
Qed.

Lemma get_put_eq o k v : get (put k v o) k = Some v.
Proof.
  induction o as [|[k' v'] o IH]; simpl.
  - by rewrite decide_True.
  - destruct (decide (k = k')) as [->|Hne]; simpl.
    + by rewrite decide_True.
    + by rewrite decide_False.
Qed.

Lemma get_put_ne o k k' v : k ≠ k' → get (put k v o) k' = get o k'.
Proof.
  intros Hne. induction o as [|[k0 v0] o IH]; simpl.
  - by rewrite decide_False.
  - destruct (decide (k = k0)) as [->|Hk]; simpl.
    + by rewrite !(decide_False (P := k' = k0)).
    + by rewrite IH.
Qed.

Lemma get_None_keys o k : get o k = None ↔ k ∉ keys o.
Proof.
  unfold keys. induction o as [|[k' v'] o IH]; simpl.
  - split; [intros _; apply not_elem_of_nil | done].
  - rewrite not_elem_of_cons. destruct (decide (k = k')) as [->|Hne].
    + split; [done|]. by intros [? _].
    + rewrite IH. tauto.
Qed.

Lemma get_Some_elem o k v : get o k = Some v → (k, v) ∈ o.
Proof.
  induction o as [|[k' v'] o IH]; simpl; [done|].
  destruct (decide (k = k')) as [->|Hne].
  - intros [= ->]. apply elem_of_cons; by left.
  - intros H. apply elem_of_cons; right; auto.
Qed.

Lemma elem_get_Some o k v : NoDup (keys o) → (k, v) ∈ o → get o k = Some v.
Proof.
  unfold keys. induction o as [|[k' v'] o IH]; simpl.
  - intros _ H. by apply elem_of_nil in H.
  - rewrite NoDup_cons. intros [Hk Hnd] [[= -> ->]|Hin]%elem_of_cons.
    + by rewrite decide_True.
    + rewrite decide_False; [by apply IH|].
      intros ->. apply Hk. apply list_elem_of_fmap. by exists (k', v).
Qed.

Lemma keys_put_present o k v : k ∈ keys o → keys (put k v o) = keys o.
Proof.
  unfold keys. induction o as [|[k' v'] o IH]; simpl.
  - intros H. by apply elem_of_nil in H.
  - intros H. destruct (decide (k = k')) as [->|Hne]; simpl; [done|].
    f_equal. apply IH. apply elem_of_cons in H as [?|?]; done.
Qed.

Lemma keys_put_absent o k v : k ∉ keys o → keys (put k v o) = keys o ++ [k].
Proof.
  unfold keys. induction o as [|[k' v'] o IH]; simpl; [done|].
  rewrite not_elem_of_cons. intros [Hne Hk].
  rewrite decide_False by done. cbn [fmap list_fmap fst app].
  f_equal. by apply IH.
Qed.

Lemma keys_update_values (f : V → V) o : keys (update_values f o) = keys o.
Proof.
  unfold keys, update_values. rewrite <- list_fmap_compose.
  by apply list_fmap_ext.
Qed.

Lemma values_update_values (f : V → V) o :
  values (update_values f o) = f <$> values o.
Proof.
  unfold values, update_values. rewrite <- !list_fmap_compose.
  by apply list_fmap_ext.
Qed.

Lemma get_update_values (f : V → V) o k :
  get (update_values f o) k = f <$> get o k.
Proof.
  induction o as [|[k' v'] o IH]; simpl; [done|].
  destruct (decide (k = k')); simpl; [done|apply IH].
Qed.

Lemma update_values_id (f : V → V) o :
  (∀ v, v ∈ values o → f v = v) → update_values f o = o.
Proof.
  unfold values, update_values. induction o as [|[k v] o IH]; simpl; [done|].
  intros H. rewrite (H v) by (apply elem_of_cons; by left).
  f_equal. apply IH. intros v' Hv'. apply H. apply elem_of_cons; by right.
Qed.

Lemma update_values_compose (f g : V → V) o :
  update_values f (update_values g o) = update_values (f ∘ g) o.
Proof. unfold update_values. by rewrite <- list_fmap_compose. Qed.

Lemma update_values_ext (f g : V → V) o :
  (∀ v, v ∈ values o → f v = g v) → update_values f o = update_values g o.
Proof.
  unfold values, update_values. induction o as [|[k v] o IH]; simpl; [done|].
  intros H. rewrite (H v) by (apply elem_of_cons; by left).
  f_equal. apply IH. intros v' Hv'. apply H. apply elem_of_cons; by right.
Qed.

(** Writing back, under their own keys, the values selected from an
    object of which every value is stored under its own key amounts to
    updating those values in place. *)
Section OwnKeys.
Variable kf : V → string.
Variable f : V → V.

Lemma own_keys_values o : own_keys kf o → kf <$> values o = keys o.
Proof.
  intros [_ Hall]. unfold values, keys.
  induction o as [|[k v] o IH]; [done|].
  apply Forall_cons in Hall as [Hkv Hall]. simpl in Hkv.
  cbn [fmap list_fmap fst snd]. f_equal; [done|by apply IH].
Qed.

Lemma own_keys_cons k v o :
  own_keys kf ((k, v) :: o) →
  kf v = k ∧ (k ∉ kf <$> values o) ∧ own_keys kf o.
Proof.
  intros Hown. pose proof Hown as [Hnd Hall].
  apply Forall_cons in Hall as [Hkv Hall].
  unfold keys in Hnd. cbn [fmap list_fmap fst] in Hnd.
  apply NoDup_cons in Hnd as [Hk Hnd].
  assert (own_keys kf o) as Ho by done.
  split_and!; [done| |done]. by rewrite (own_keys_values o Ho).
Qed.

Lemma own_keys_update_values (g : V → V) o :
  (∀ v, kf (g v) = kf v) → own_keys kf o → own_keys kf (update_values g o).
Proof.
  intros Hg [Hnd Hall]. split.
  - by rewrite keys_update_values.
  - unfold update_values. apply Forall_fmap.
    eapply Forall_impl; [exact Hall|]. intros [k v]. simpl.
    intros <-. apply Hg.
Qed.

Lemma foldl_put_cons (l : list V) k v o :
  k ∉ (kf <$> l) →
  foldl (λ acc p, put (kf p) (f p) acc) ((k, v) :: o) l
  = (k, v) :: foldl (λ acc p, put (kf p) (f p) acc) o l.
Proof.
  revert o. induction l as [|p l IH]; intros o; simpl; [done|].
  rewrite not_elem_of_cons. intros [Hne Hl].
  rewrite decide_False by done. by apply IH.
Qed.

Lemma foldl_put_filter (P : V → Prop) `{!∀ p, Decision (P p)} o :
  own_keys kf o →
  foldl (λ acc p, put (kf p) (f p) acc) o (filter P (values o))
  = update_values (λ p, if decide (P p) then f p else p) o.
Proof.
  induction o as [|[k v] o IH]; [done|].
  intros (Hk & Hfresh & Hown)%own_keys_cons.
  assert (k ∉ (kf <$> filter P (values o))) as Hfresh'.
  { intros (p & Hp & Hin%list_elem_of_filter)%list_elem_of_fmap.
    apply Hfresh. apply list_elem_of_fmap. exists p. tauto. }
  unfold values in *. cbn [fmap list_fmap snd update_values fst].
  rewrite filter_cons. destruct (decide (P v)) as [HP|HP]; simpl.
  - rewrite Hk, decide_True by done.
    rewrite foldl_put_cons by done. f_equal. by apply IH.
  - rewrite foldl_put_cons by done. f_equal. by apply IH.
Qed.

Lemma foldl_mutate_None (l : list V) (c : V → bool) :
  foldl (λ acc p, if c p then acc ≫= mutate (kf p) f else acc) None l
  = None.
Proof. induction l as [|p l IH]; simpl; [done|]. by destruct (c p). Qed.

Lemma foldl_mutate_cons (l : list V) (c : V → bool) k v o :
  k ∉ (kf <$> l) →
  foldl (λ acc p, if c p then acc ≫= mutate (kf p) f else acc)
        (Some ((k, v) :: o)) l
  = cons (k, v) <$>
      foldl (λ acc p, if c p then acc ≫= mutate (kf p) f else acc)
            (Some o) l.
Proof.
  revert o. induction l as [|p l IH]; intros o; simpl; [done|].
  rewrite not_elem_of_cons. intros [Hne Hl].
  destruct (c p); simpl; [|by apply IH].
  rewrite decide_False by done.
  destruct (mutate (kf p) f o) as [o'|]; simpl; [by apply IH|].
  by rewrite foldl_mutate_None.
Qed.

Lemma foldl_mutate_filter (P : V → Prop) `{!∀ p, Decision (P p)}
    (c : V → bool) o :
  own_keys kf o →
  foldl (λ acc p, if c p then acc ≫= mutate (kf p) f else acc)
        (Some o) (filter P (values o))
  = Some (update_values
            (λ p, if decide (P p) then if c p then f p else p else p) o).
Proof.
  induction o as [|[k v] o IH]; [done|].
  intros (Hk & Hfresh & Hown)%own_keys_cons.
  assert (k ∉ (kf <$> filter P (values o))) as Hfresh'.
  { intros (p & Hp & Hin%list_elem_of_filter)%list_elem_of_fmap.
    apply Hfresh. apply list_elem_of_fmap. exists p. tauto. }
  unfold values in *. cbn [fmap list_fmap snd update_values fst].
  rewrite filter_cons. destruct (decide (P v)) as [HP|HP]; simpl.
  - destruct (c v); simpl.
    + rewrite Hk, decide_True by done.
      rewrite foldl_mutate_cons by done. by rewrite IH.
    + rewrite foldl_mutate_cons by done. by rewrite IH.
  - rewrite foldl_mutate_cons by done. by rewrite IH.
Qed.
End OwnKeys.
End JsObjectFacts.

(* ================================================================== *)
(** ** Facts about groups and the merge *)
(* ================================================================== *)

Section GroupFacts.
Implicit Types (st : Store) (s t g : string) (off : Vec3) (p : PieceState).

Lemma elem_of_uniqueGroups st g :
  g ∈ uniqueGroups st ↔ ∃ p, p ∈ values st ∧ groupId p = g.
Proof.
  unfold uniqueGroups. rewrite elem_of_list_to_set, list_elem_of_fmap.
  split; intros (p & H1 & H2); eauto.
Qed.

Lemma uniqueGroups_cons k p st :
  uniqueGroups ((k, p) :: st) = {[groupId p]} ∪ uniqueGroups st.
Proof. done. Qed.

Lemma groupId_relabel s t off p :
  groupId (Server.relabel s t off p)
  = if decide (groupId p = s) then t else groupId p.
Proof. unfold Server.relabel. by case_decide. Qed.

Lemma id_relabel s t off p : id (Server.relabel s t off p) = id p.
Proof. unfold Server.relabel. by case_decide. Qed.

Lemma isSolved_relabel s t off p :
  isSolved (Server.relabel s t off p) = isSolved p.
Proof. unfold Server.relabel. by case_decide. Qed.

Lemma merge_absent s t off st :
  s ∉ uniqueGroups st → Server.merge s t off st = st.
Proof.
  intros Hs. apply update_values_id. intros p Hp.
  unfold Server.relabel. rewrite decide_False; [done|].
  intros Hg. apply Hs, elem_of_uniqueGroups. eauto.
Qed.

Lemma uniqueGroups_merge s t off st :
  uniqueGroups (Server.merge s t off st)
  = if decide (s ∈ uniqueGroups st)
    then {[t]} ∪ uniqueGroups st ∖ {[s]}
    else uniqueGroups st.
Proof.
  case_decide as Hs; [|by rewrite merge_absent].
  apply set_eq. intros g.
  rewrite elem_of_union, elem_of_difference, elem_of_singleton,
    not_elem_of_singleton, !elem_of_uniqueGroups.
  unfold Server.merge. rewrite values_update_values. split.
  - intros (p' & (p & -> & Hp)%list_elem_of_fmap & <-).
    rewrite groupId_relabel. case_decide; [by left|right; eauto].
  - intros [->|[(p & Hp & <-) Hne]].
    + apply elem_of_uniqueGroups in Hs as (p & Hp & Hg).
      exists (Server.relabel s t off p).
      split; [apply list_elem_of_fmap; eauto|].
      by rewrite groupId_relabel, decide_True.
    + exists (Server.relabel s t off p).
      split; [apply list_elem_of_fmap; eauto|].
      by rewrite groupId_relabel, decide_False.
Qed.

Lemma size_uniqueGroups_merge_le s t off st :
  size (uniqueGroups (Server.merge s t off st)) ≤ size (uniqueGroups st).
Proof.
  rewrite uniqueGroups_merge. case_decide as Hs; [|done].
  rewrite size_union_alt, size_singleton.
  assert (size (uniqueGroups st ∖ {[s]} ∖ {[t]})
          ≤ size (uniqueGroups st ∖ {[s]})) as H1
    by (apply subseteq_size; set_solver).
  rewrite (size_difference (uniqueGroups st) {[s]}) in H1 by set_solver.
  rewrite size_singleton in H1.
  assert (0 < size (uniqueGroups st)); [|lia].
  apply Nat.neq_0_lt_0, size_non_empty_iff. set_solver.
Qed.

Lemma size_uniqueGroups_merge_dec s t off st :
  s ≠ t → s ∈ uniqueGroups st → t ∈ uniqueGroups st →
  size (uniqueGroups st) = S (size (uniqueGroups (Server.merge s t off st))).
Proof.
  intros Hne Hs Ht. rewrite uniqueGroups_merge, decide_True by done.
  replace ({[t]} ∪ uniqueGroups st ∖ {[s]}) with (uniqueGroups st ∖ {[s]})
    by set_solver.
  rewrite size_difference, size_singleton by set_solver.
  assert (0 < size (uniqueGroups st)); [|lia].
  apply Nat.neq_0_lt_0, size_non_empty_iff. set_solver.
Qed.

Lemma size_uniqueGroups_merges_le ms st :
  size (uniqueGroups (Server.merges ms st)) ≤ size (uniqueGroups st).
Proof.
  unfold Server.merges. revert st.
  induction ms as [|[[s t] off] ms IH]; intros st; simpl; [done|].
  etrans; [apply IH|apply size_uniqueGroups_merge_le].
Qed.

(** Once the source group has been relabelled (to a different group) no
    piece is left in it. *)
Lemma merge_source_gone s t off st :
  s ≠ t → s ∉ uniqueGroups (Server.merge s t off st).
Proof.
  intros Hne. rewrite uniqueGroups_merge. case_decide; set_solver.
Qed.

Lemma merge_merge s t off st :
  s ≠ t →
  Server.merge s t off (Server.merge s t off st) = Server.merge s t off st.
Proof. intros Hne. by apply merge_absent, merge_source_gone. Qed.

Lemma wf_store_merge s t off st :
  wf_store st → wf_store (Server.merge s t off st).
Proof. apply own_keys_update_values. intros p. apply id_relabel. Qed.

Lemma wf_store_solve st : wf_store st → wf_store (update_values solve st).
Proof. by apply own_keys_update_values. Qed.

Lemma uniqueGroups_solve st :
  uniqueGroups (update_values solve st) = uniqueGroups st.
Proof.
  unfold uniqueGroups. rewrite values_update_values, <- list_fmap_compose.
  done.
Qed.
End GroupFacts.

(* ================================================================== *)
(** ** Facts about the client's handlers *)
(* ================================================================== *)

Section ClientFacts.
Implicit Types (st : Store) (s t g : string) (off : Vec3) (p : PieceState).

Lemma merge_source_wf s t off st :
  wf_store st → Client.merge_source s t off st = Server.merge s t off st.
Proof.
  intros Hwf. unfold Client.merge_source.
  by rewrite (foldl_put_filter id _ (λ p, groupId p = s)).
Qed.

Lemma merge_source_absent s t off st :
  (∀ p, p ∈ values st → groupId p ≠ s) →
  Client.merge_source s t off st = st.
Proof.
  intros Hs. unfold Client.merge_source.
  replace (filter (λ p, groupId p = s) (values st)) with (@nil PieceState);
    [done|].
  symmetry. induction (values st) as [|p l IH]; [done|].
  rewrite filter_cons_False.
  - apply IH. intros q Hq. apply Hs. apply elem_of_cons; by right.
  - apply Hs. apply elem_of_cons; by left.
Qed.

Lemma complete_all_wf st :
  wf_store st → Client.complete_all st = Some (update_values solve st).
Proof.
  intros Hwf. unfold Client.complete_all.
  pose proof (foldl_mutate_filter id solve (λ _, True) (λ _, true) st Hwf)
    as E.
  rewrite filter_all in E. exact E.
Qed.

Lemma solve_solve p : solve (solve p) = solve p.
Proof. done. Qed.

Lemma check_completion_wf st :
  wf_store st →
  Client.check_completion st
  = Some (if decide (size (uniqueGroups st) = 1)
          then update_values solve st else st).
Proof.
  intros Hwf. unfold Client.check_completion.
  case_decide; [by apply complete_all_wf|done].
Qed.

Lemma on_GROUP_MERGED_wf s t off c :
  wf_store (Client.pieceStates c) →
  Client.on_GROUP_MERGED s t off c
  = Some (Client.set_pieceStates
            (let st1 := Server.merge s t off (Client.pieceStates c) in
             if decide (size (uniqueGroups st1) = 1)
             then update_values solve st1 else st1) c).
Proof.
  intros Hwf. unfold Client.on_GROUP_MERGED.
  rewrite merge_source_wf by done.
  by rewrite check_completion_wf by by apply wf_store_merge.
Qed.

Lemma on_GROUP_MERGED_groups s t off c c' :
  wf_store (Client.pieceStates c) →
  Client.on_GROUP_MERGED s t off c = Some c' →
  wf_store (Client.pieceStates c')
  ∧ uniqueGroups (Client.pieceStates c')
    = uniqueGroups (Server.merge s t off (Client.pieceStates c)).
Proof.
  intros Hwf. rewrite on_GROUP_MERGED_wf by done. intros [= <-]. simpl.
  case_decide.
  - split; [by apply wf_store_solve, wf_store_merge|].
    apply uniqueGroups_solve.
  - split; [by apply wf_store_merge|done].
Qed.

Lemma client_merges_groups ms c :
  wf_store (Client.pieceStates c) →
  ∃ c', Client.merges ms c = Some c'
        ∧ wf_store (Client.pieceStates c')
        ∧ size (uniqueGroups (Client.pieceStates c'))
          ≤ size (uniqueGroups (Client.pieceStates c)).
Proof.
  unfold Client.merges. revert c.
  induction ms as [|[[s t] off] ms IH]; intros c Hwf; simpl.
  - by exists c.
  - destruct (Client.on_GROUP_MERGED s t off c) as [c1|] eqn:E.
    2: { by rewrite on_GROUP_MERGED_wf in E. }
    apply on_GROUP_MERGED_groups in E as [Hwf1 Hg]; [|done].
    destruct (IH c1 Hwf1) as (c' & Hc' & Hwf' & Hle).
    exists c'. split_and!; [done..|].
    etrans; [exact Hle|]. rewrite Hg. apply size_uniqueGroups_merge_le.
Qed.
End ClientFacts.

(* ================================================================== *)
(** ** Properties of the grouping model *)
(* ================================================================== *)

(** The example of the specification: merging P2 into P1 with offset
    (1,0,0) leaves three groups and shifts P2 by the offset. *)
Example merge_four :
  Server.merge "P2" "P1" (mkVec3 1 0 0) Examples.four
  = [("P1", Examples.piece "P1" "P1" 0 5 0);
     ("P2", Examples.piece "P2" "P1" 4 5 0);
     ("P3", Examples.piece "P3" "P3" 0 5 9);
     ("P4", Examples.piece "P4" "P4" 7 5 7)]
  ∧ size (uniqueGroups Examples.four) = 4
  ∧ size (uniqueGroups (Server.merge "P2" "P1" (mkVec3 1 0 0) Examples.four))
    = 3.
Proof. split_and!; by vm_compute. Qed.

(** C1: when some piece is in the source group, some piece is in the
    target group and the two groups differ, a merge lowers the number of
    distinct group ids by exactly one, in the session store and in a
    client mirror that handles the resulting [GROUP_MERGED]; and no
    sequence of merges ever raises that number. *)
Theorem merge_group_count :
  (∀ (st : Store) (s t : string) (off : Vec3),
     s ≠ t →
     (∃ p, p ∈ values st ∧ groupId p = s) →
     (∃ p, p ∈ values st ∧ groupId p = t) →
     size (uniqueGroups st)
     = S (size (uniqueGroups (Server.merge s t off st)))
     ∧ ∀ c, Client.pieceStates c = st → wf_store st →
         ∃ c', Client.on_GROUP_MERGED s t off c = Some c'
               ∧ size (uniqueGroups st)
                 = S (size (uniqueGroups (Client.pieceStates c'))))
  ∧ (∀ ms (st : Store),
       size (uniqueGroups (Server.merges ms st)) ≤ size (uniqueGroups st))
  ∧ (∀ ms c, wf_store (Client.pieceStates c) →
       ∃ c', Client.merges ms c = Some c'
             ∧ size (uniqueGroups (Client.pieceStates c'))
               ≤ size (uniqueGroups (Client.pieceStates c))).
Proof.
  split_and!.
  - intros st s t off Hne Hs%elem_of_uniqueGroups Ht%elem_of_uniqueGroups.
    split; [by apply size_uniqueGroups_merge_dec|].
    intros c <- Hwf.
    destruct (Client.on_GROUP_MERGED s t off c) as [c'|] eqn:E.
    2: { by rewrite on_GROUP_MERGED_wf in E. }
    exists c'. split; [done|].
    apply on_GROUP_MERGED_groups in E as [_ ->]; [|done].
    by apply size_uniqueGroups_merge_dec.
  - apply size_uniqueGroups_merges_le.
  - intros ms c Hwf.
    destruct (client_merges_groups ms c Hwf) as (c' & ? & _ & ?). eauto.
Qed.

Lemma merge_group_count_witness :
  size (uniqueGroups Examples.four)
  = S (size (uniqueGroups
               (Server.merge "P2" "P1" (mkVec3 1 0 0) Examples.four)))
  ∧ ∃ c', Client.on_GROUP_MERGED "P2" "P1" (mkVec3 1 0 0)
            (Examples.client Examples.four None) = Some c'
          ∧ size (uniqueGroups Examples.four)
            = S (size (uniqueGroups (Client.pieceStates c'))).
Proof.
  destruct (proj1 merge_group_count Examples.four "P2" "P1" (mkVec3 1 0 0))
    as [Hserver Hclient].
  - discriminate.
  - exists (Examples.piece "P2" "P2" 3 5 0). split; [member|reflexivity].
  - exists (Examples.piece "P1" "P1" 0 5 0). split; [member|reflexivity].
  - split; [exact Hserver|].
    apply (Hclient (Examples.client Examples.four None)); [reflexivity|].
    concrete.
Defined.

(** C2 as stated fails: neither handler compares the two group ids, so a
    merge of a group into itself still translates the group's pieces.
    Here the one piece of group P1 moves from x = 0 to x = 1. *)
Lemma merge_same_group_moves :
  position <$> get Examples.single "P1" = Some (mkVec3 0 5 0)
  ∧ position <$> get (Server.merge "P1" "P1" (mkVec3 1 0 0) Examples.single) "P1"
    = Some (mkVec3 1 5 0)
  ∧ position <$>
      get (Client.merge_source "P1" "P1" (mkVec3 1 0 0) Examples.single) "P1"
    = Some (mkVec3 1 5 0)
  ∧ PrimFloat.eqb 1 0 = false.
Proof. split_and!; by vm_compute. Qed.

(** C2, amended: a merge of group [g] into itself changes no key, no
    group id and no solved flag; it translates the position of every piece
    of [g] by the offset and leaves the other pieces as they are.  The
    client's merge logic does the same on a mirror that stores every piece
    under its id. *)
Theorem merge_same_group (st : Store) (g : string) (off : Vec3) :
  let st' := Server.merge g g off st in
  keys st' = keys st
  ∧ groupId <$> values st' = groupId <$> values st
  ∧ isSolved <$> values st' = isSolved <$> values st
  ∧ (∀ k p, get st k = Some p →
       get st' k
       = Some (if decide (groupId p = g)
               then with_position (translate (position p) off) p
               else p))
  ∧ (wf_store st → Client.merge_source g g off st = st').
Proof.
  simpl. split_and!.
  - apply keys_update_values.
  - unfold Server.merge. rewrite values_update_values, <- list_fmap_compose.
    apply list_fmap_ext. intros _ p _. simpl. rewrite groupId_relabel.
    by case_decide.
  - unfold Server.merge. rewrite values_update_values, <- list_fmap_compose.
    apply list_fmap_ext. intros _ p _. simpl. apply isSolved_relabel.
  - intros k p Hp. unfold Server.merge. rewrite get_update_values, Hp. simpl.
    unfold Server.relabel. case_decide as Hg; [|done].
    unfold with_group_position, with_position. by rewrite Hg.
  - apply merge_source_wf.
Qed.

Lemma merge_same_group_witness :
  Client.merge_source "P1" "P1" (mkVec3 1 0 0) Examples.pair_in_P1
  = Server.merge "P1" "P1" (mkVec3 1 0 0) Examples.pair_in_P1.
Proof.
  apply (merge_same_group Examples.pair_in_P1 "P1" (mkVec3 1 0 0)).
  concrete.
Defined.

(** C3 as stated fails: the second application finds no piece left in the
    source group, so it translates nothing.  Merging P2 into P1 twice with
    the nonzero offset (1,0,0) gives the store that merging once gives. *)
Lemma merge_twice_same_positions :
  let once := Server.merge "P2" "P1" (mkVec3 1 0 0) Examples.two in
  let twice := Server.merge "P2" "P1" (mkVec3 1 0 0) once in
  PrimFloat.eqb 1 0 = false
  ∧ position <$> get once "P2" = Some (mkVec3 4 5 0)
  ∧ position <$> get twice "P2" = Some (mkVec3 4 5 0)
  ∧ twice = once.
Proof. split_and!; by vm_compute. Qed.

(** C3, amended: with source and target groups distinct, applying a merge
    twice with the same arguments yields exactly the store that applying
    it once yields, positions included: the second application is the
    identity.  The same holds for a client mirror handling the same
    [GROUP_MERGED] twice. *)
Theorem merge_twice (st : Store) (s t : string) (off : Vec3) (Hne : s ≠ t) :
  Server.merge s t off (Server.merge s t off st) = Server.merge s t off st
  ∧ ∀ c, Client.pieceStates c = st → wf_store st →
      ∃ c1, Client.on_GROUP_MERGED s t off c = Some c1
            ∧ Client.on_GROUP_MERGED s t off c1 = Some c1.
Proof.
  split; [by apply merge_merge|].
  intros c <- Hwf. eexists. split; [by apply on_GROUP_MERGED_wf|].
  destruct c as [regions st dragged snap]. simpl in *.
  set (st1 := Server.merge s t off st).
  assert (wf_store st1) as Hwf1 by by apply wf_store_merge.
  case_decide as Hone.
  - rewrite on_GROUP_MERGED_wf by by apply wf_store_solve.
    unfold Client.set_pieceStates. simpl. do 2 f_equal.
    rewrite merge_absent.
    + rewrite uniqueGroups_solve, decide_True by done.
      rewrite update_values_compose. by apply update_values_ext.
    + rewrite uniqueGroups_solve. by apply merge_source_gone.
  - rewrite on_GROUP_MERGED_wf by done.
    unfold Client.set_pieceStates. simpl. do 2 f_equal.
    fold st1. rewrite (merge_absent s t off st1) by by apply merge_source_gone.
    by rewrite decide_False.
Qed.

Lemma merge_twice_witness :
  Server.merge "P2" "P1" (mkVec3 1 0 0)
    (Server.merge "P2" "P1" (mkVec3 1 0 0) Examples.four)
  = Server.merge "P2" "P1" (mkVec3 1 0 0) Examples.four
  ∧ ∃ c1, Client.on_GROUP_MERGED "P2" "P1" (mkVec3 1 0 0)
            (Examples.client Examples.four None) = Some c1
          ∧ Client.on_GROUP_MERGED "P2" "P1" (mkVec3 1 0 0) c1 = Some c1.
Proof.
  destruct (merge_twice Examples.four "P2" "P1" (mkVec3 1 0 0)) as [H1 H2];
    [discriminate|].
  split; [exact H1|]. apply H2; [reflexivity|concrete].
Defined.

(** C9: the leniency misses the piece ids that name a member every
    object inherits.  The session holds no piece [toString], yet
    [session.pieceStates["toString"]] is the inherited function and so
    passes the test of the handler: the [else] branch writes [.position]
    onto that function, the store gains no default state, and the message
    relayed to the other player has no [groupId]. *)
Theorem move_piece_inherited_name :
  let s := Server.mkSession [Examples.alice; Examples.bob] Examples.two in
  let r := Server.handle Examples.alice
             (MOVE_PIECE "toString" (mkVec3 1 2 3)) s in
  get (Server.pieceStates s) "toString" = None
  ∧ get (Server.pieceStates r.1) "toString" = None
  ∧ Server.pieceStates r.1 = Server.pieceStates s
  ∧ r.2 = [(Examples.bob, PIECE_MOVED_NO_GROUP "toString" (mkVec3 1 2 3))].
Proof. split_and!; by vm_compute. Qed.

(** C10: when no piece is in the source group, the merge is a no-op on
    both sides: the server's relabel-and-translate loop leaves the store
    as it is, and so does the client's merge logic, entry for entry and
    with no entry added.  The client's handler goes on to its completion
    check, a step of its own that does not depend on the merge: the handler
    as a whole is that check, and returns the mirror as it was unless the
    mirror holds exactly one group. *)
Theorem merge_unknown_source (st : Store) (s t : string) (off : Vec3)
    (Hs : ∀ p, p ∈ values st → groupId p ≠ s) :
  Server.merge s t off st = st
  ∧ Client.merge_source s t off st = st
  ∧ ∀ c, Client.pieceStates c = st →
      Client.on_GROUP_MERGED s t off c
      = (λ st', Client.set_pieceStates st' c) <$> Client.check_completion st
      ∧ (size (uniqueGroups st) ≠ 1 →
           Client.on_GROUP_MERGED s t off c = Some c).
Proof.
  split_and!.
  - apply merge_absent. intros (p & Hp & Hg)%elem_of_uniqueGroups.
    by apply (Hs p).
  - by apply merge_source_absent.
  - intros c <-. unfold Client.on_GROUP_MERGED.
    rewrite merge_source_absent by done. split.
    + by destruct (Client.check_completion (Client.pieceStates c)).
    + intros Hone. unfold Client.check_completion.
      rewrite decide_False by done. simpl. by destruct c.
Qed.

Lemma merge_unknown_source_witness :
  Server.merge "P9" "P1" (mkVec3 1 1 1) Examples.two = Examples.two
  ∧ Client.on_GROUP_MERGED "P9" "P1" (mkVec3 1 1 1)
      (Examples.client Examples.two None)
    = Some (Examples.client Examples.two None).
Proof.
  assert (∀ p, p ∈ values Examples.two → groupId p ≠ "P9") as Hs.
  { intros p Hp. unfold values in Hp. simpl in Hp.
    repeat (apply elem_of_cons in Hp as [->|Hp]; [discriminate|]).
    by apply elem_of_nil in Hp. }
  destruct (merge_unknown_source Examples.two "P9" "P1" (mkVec3 1 1 1) Hs)
    as (H1 & _ & H3).
  split; [exact H1|].
  apply (H3 (Examples.client Examples.two None)); [reflexivity|].
  vm_compute. discriminate.
Defined.

(* ================================================================== *)
(** ** Reconciliation and broadcast *)
(* ================================================================== *)

(** C5 as stated fails: the handler compares the message's piece id with
    the dragged piece id only.  While P1 (group P1) is being dragged, a
    [PIECE_MOVED] for P2, another piece of group P1, is applied. *)
Lemma piece_moved_same_group_applied :
  let c := Examples.client Examples.pair_in_P1 (Some "P1") in
  groupId <$> get (Client.pieceStates c) "P1" = Some "P1"
  ∧ get (Client.pieceStates c) "P2" = Some (Examples.piece "P2" "P1" 3 5 0)
  ∧ (λ c', get (Client.pieceStates c') "P2") <$>
      Client.on_message (PIECE_MOVED "P2" (mkVec3 9 5 9) "P1") c
    = Some (Some (Examples.piece "P2" "P1" 9 5 9)).
Proof. split_and!; by vm_compute. Qed.

(** C5, amended: a [PIECE_MOVED] for the very piece the client is
    dragging is discarded and leaves the whole store as it is.  A
    [PIECE_MOVED] for any other piece, of the dragged group or not,
    overwrites the position and group of that piece when the mirror holds
    it, and changes no other piece. *)
Theorem piece_moved_reconciled (c : Client.State) (pieceId group : string)
    (pos : Vec3) :
  (Client.draggedPieceId c = Some pieceId →
     Client.on_message (PIECE_MOVED pieceId pos group) c = Some c)
  ∧ (Client.draggedPieceId c ≠ Some pieceId →
       ∃ c', Client.on_message (PIECE_MOVED pieceId pos group) c = Some c'
         ∧ get (Client.pieceStates c') pieceId
           = with_group_position group pos <$> get (Client.pieceStates c) pieceId
         ∧ ∀ k, k ≠ pieceId →
             get (Client.pieceStates c') k = get (Client.pieceStates c) k).
Proof.
  simpl. unfold Client.on_PIECE_MOVED. split.
  - intros Hd. by rewrite decide_True.
  - intros Hd. rewrite decide_False by done. eexists. split; [done|].
    simpl. destruct (get (Client.pieceStates c) pieceId) as [p|] eqn:Hp.
    + split; [apply get_put_eq|]. intros k Hk. by apply get_put_ne.
    + by rewrite Hp.
Qed.

Lemma piece_moved_reconciled_witness :
  Client.on_message (PIECE_MOVED "P1" (mkVec3 9 5 9) "P1")
    (Examples.client Examples.pair_in_P1 (Some "P1"))
  = Some (Examples.client Examples.pair_in_P1 (Some "P1"))
  ∧ ∃ c', Client.on_message (PIECE_MOVED "P2" (mkVec3 9 5 9) "P1")
            (Examples.client Examples.pair_in_P1 (Some "P1")) = Some c'
      ∧ get (Client.pieceStates c') "P2"
        = Some (Examples.piece "P2" "P1" 9 5 9).
Proof.
  split.
  - apply (proj1 (piece_moved_reconciled
                    (Examples.client Examples.pair_in_P1 (Some "P1"))
                    "P1" "P1" (mkVec3 9 5 9))).
    reflexivity.
  - destruct (proj2 (piece_moved_reconciled
                       (Examples.client Examples.pair_in_P1 (Some "P1"))
                       "P2" "P1" (mkVec3 9 5 9))) as (c' & Hc' & Hget & _).
    + discriminate.
    + exists c'. split; [exact Hc'|exact Hget].
Defined.

Section Broadcast.
Implicit Types (ws client : Server.Conn) (s : Server.Session).

(** The [PIECE_MOVED] of a [MOVE_PIECE] goes to the open connections of
    the session other than the sender, and to no one else. *)
Lemma move_piece_recipients ws s pieceId pos client msg :
  (client, msg) ∈ (Server.handle ws (MOVE_PIECE pieceId pos) s).2
  ↔ client ∈ Server.players s
    ∧ Server.same_conn client ws = false
    ∧ Server.is_open client = true
    ∧ msg = Server.moved_message pieceId pos (Server.pieceStates s).
Proof.
  simpl. rewrite list_elem_of_fmap. split.
  - intros (cl & [= -> ->] & [Hc Hin]%list_elem_of_filter).
    apply andb_true_iff in Hc as [Hne%negb_true_iff Hopen]. done.
  - intros (Hin & Hne & Hopen & ->). exists client. split; [done|].
    apply list_elem_of_filter. split; [|done]. by rewrite Hne, Hopen.
Qed.

Lemma move_piece_no_echo ws s pieceId pos msg :
  (ws, msg) ∉ (Server.handle ws (MOVE_PIECE pieceId pos) s).2.
Proof.
  intros (_ & Hne & _)%move_piece_recipients.
  unfold Server.same_conn in Hne. by rewrite Nat.eqb_refl in Hne.
Qed.

(** The [GROUP_MERGED] of a [MERGE_GROUP] goes to every open connection of
    the session: the sender is not left out. *)
Lemma merge_group_recipients ws s a b off client msg :
  (client, msg) ∈ (Server.handle ws (MERGE_GROUP a b off) s).2
  ↔ client ∈ Server.players s
    ∧ Server.is_open client = true
    ∧ msg = GROUP_MERGED a b off.
Proof.
  simpl. rewrite list_elem_of_fmap. split.
  - by intros (cl & [= -> ->] & [Hc Hin]%list_elem_of_filter).
  - intros (Hin & Hopen & ->). exists client. split; [done|].
    by apply list_elem_of_filter.
Qed.
End Broadcast.

(** C6: for [MOVE_PIECE] the delta goes to every open connection except
    the sender, but for [MERGE_GROUP] the sender is among the recipients.
    With two open connections, alice's merge is sent back to alice, while
    her move is sent to bob only. *)
Theorem merge_group_echoed_to_sender :
  let s := Server.mkSession [Examples.alice; Examples.bob] Examples.two in
  (Server.handle Examples.alice (MERGE_GROUP "P2" "P1" (mkVec3 1 0 0)) s).2
  = [(Examples.alice, GROUP_MERGED "P2" "P1" (mkVec3 1 0 0));
     (Examples.bob, GROUP_MERGED "P2" "P1" (mkVec3 1 0 0))]
  ∧ (Server.handle Examples.alice (MOVE_PIECE "P2" (mkVec3 4 5 0)) s).2
    = [(Examples.bob, PIECE_MOVED "P2" (mkVec3 4 5 0) "P2")].
Proof. split; by vm_compute. Qed.

(* ================================================================== *)
(** ** Initialising the mirror *)
(* ================================================================== *)

Section InitFacts.
Variable Math_sin Math_floor : float → float.
Implicit Types (seed : list float) (server states : Store) (r : Region).

Local Abbreviation spawn := (Client.spawn Math_sin Math_floor).
Local Abbreviation init_region := (Client.init_region Math_sin Math_floor).
Local Abbreviation init_regions := (Client.init_regions Math_sin Math_floor).

Lemma init_region_put seed server states i r :
  init_region seed server states i r
  = put (rid r) (default (spawn seed i r) (get server (rid r))) states.
Proof.
  unfold Client.init_region.
  destruct (get server (rid r)) as [ps|] eqn:Hget; [|done].
  rewrite bool_decide_eq_true_2; [done|].
  destruct server; [done|]. unfold keys. simpl. lia.
Qed.

Lemma init_regions_other seed server regions states i k :
  k ∉ rid <$> regions →
  get (init_regions seed server states i regions) k = get states k.
Proof.
  revert states i. induction regions as [|r rest IH]; intros states i Hk;
    simpl; [done|].
  apply not_elem_of_cons in Hk as [Hne Hk].
  rewrite IH, init_region_put by done. by apply get_put_ne.
Qed.

Lemma init_regions_server seed server regions states i k ps :
  get server k = Some ps →
  k ∈ rid <$> regions ∨ get states k = Some ps →
  get (init_regions seed server states i regions) k = Some ps.
Proof.
  intros Hps. revert states i.
  induction regions as [|r rest IH]; intros states i Hk; simpl.
  - destruct Hk as [Hk|Hk]; [by apply elem_of_nil in Hk|done].
  - apply IH. rewrite init_region_put.
    destruct (decide (rid r = k)) as [->|Hne].
    + right. by rewrite Hps, get_put_eq.
    + rewrite get_put_ne by done.
      destruct Hk as [[?|?]%elem_of_cons|?]; [done|by left|by right].
Qed.

Lemma init_regions_spawn seed server regions states i k :
  get server k = None →
  k ∈ rid <$> regions →
  ∃ j r, regions !! j = Some r ∧ rid r = k
         ∧ get (init_regions seed server states i regions) k
           = Some (spawn seed (i + j) r).
Proof.
  intros Hnone. revert states i.
  induction regions as [|r rest IH]; intros states i Hk; simpl.
  - by apply elem_of_nil in Hk.
  - destruct (decide (k ∈ rid <$> rest)) as [Hin|Hout].
    + destruct (IH (init_region seed server states i r) (S i) Hin)
        as (j & r' & Hj & Hr' & Hget).
      exists (S j), r'. split_and!; [done..|].
      by rewrite Hget, Nat.add_succ_r.
    + apply elem_of_cons in Hk as [->|?]; [|done].
      exists 0, r. split_and!; [done..|].
      rewrite init_regions_other, init_region_put by done.
      by rewrite Hnone, get_put_eq, Nat.add_0_r.
Qed.
End InitFacts.

(** C8: after [setPuzzleRegions], the mirror holds, for every region the
    server has a state for, exactly that state; a spawn state scattered
    from the seed is used only for a region the server has no state for,
    and its position depends on the seed and the region's index alone.
    The mirror holds nothing under any other key. *)
Theorem setPuzzleRegions_mirror (Math_sin Math_floor : float → float)
    (regions : list Region) (scatterSeed : list float)
    (currentServerStates : Store) (c : Client.State) :
  let c' :=
    Client.setPuzzleRegions Math_sin Math_floor regions scatterSeed
      currentServerStates c in
  Client.puzzleRegions c' = regions
  ∧ (∀ r ps, r ∈ regions →
       get currentServerStates (rid r) = Some ps →
       get (Client.pieceStates c') (rid r) = Some ps)
  ∧ (∀ r, r ∈ regions →
       get currentServerStates (rid r) = None →
       ∃ index r', regions !! index = Some r' ∧ rid r' = rid r
         ∧ get (Client.pieceStates c') (rid r)
           = Some (Client.spawn Math_sin Math_floor scatterSeed index r'))
  ∧ (∀ k, k ∉ rid <$> regions → get (Client.pieceStates c') k = None)
  ∧ (∀ index r r',
       position (Client.spawn Math_sin Math_floor scatterSeed index r)
       = position (Client.spawn Math_sin Math_floor scatterSeed index r')).
Proof.
  simpl. split_and!; [done| | | |done].
  - intros r ps Hr Hps. apply init_regions_server; [done|].
    left. apply list_elem_of_fmap. eauto.
  - intros r Hr Hnone.
    destruct (init_regions_spawn Math_sin Math_floor scatterSeed
                currentServerStates regions [] 0 (rid r) Hnone)
      as (j & r' & Hj & Hr' & Hget).
    { apply list_elem_of_fmap. eauto. }
    by exists j, r'.
  - intros k Hk. by rewrite init_regions_other.
Qed.

Lemma setPuzzleRegions_mirror_witness :
  let regions := (λ k, mkRegion k (mkCenter 0 0)) <$> ["P1"; "P2"; "P3"] in
  let c' :=
    Client.setPuzzleRegions (λ x, x) (λ x, x) regions [1%float; 2%float]
      Examples.pair_in_P1 (Examples.client [] None) in
  get (Client.pieceStates c') "P2" = Some (Examples.piece "P2" "P1" 3 5 0)
  ∧ ∃ index r', regions !! index = Some r' ∧ rid r' = "P3"
      ∧ get (Client.pieceStates c') "P3"
        = Some (Client.spawn (λ x, x) (λ x, x) [1%float; 2%float] index r').
Proof.
  intros regions c'.
  pose proof (setPuzzleRegions_mirror (λ x, x) (λ x, x) regions
                [1%float; 2%float] Examples.pair_in_P1
                (Examples.client [] None)) as (_ & Hserver & Hspawn & _).
  split.
  - apply (Hserver (mkRegion "P2" (mkCenter 0 0))); [|reflexivity].
    apply list_elem_of_further, list_elem_of_here.
  - apply (Hspawn (mkRegion "P3" (mkCenter 0 0))); [|reflexivity].
    do 2 apply list_elem_of_further. apply list_elem_of_here.
Defined.

(* ================================================================== *)
(** ** Snap detection *)
(* ================================================================== *)

Section SnapFacts.
Implicit Types (regions : list Region) (mover target : PieceState).

Lemma find_app {A} (f : A → bool) (l1 l2 : list A) :
  List.find f (l1 ++ l2)
  = match List.find f l1 with
    | Some x => Some x
    | None => List.find f l2
    end.
Proof. induction l1 as [|x l1 IH]; simpl; [done|]. by destruct (f x). Qed.

Lemma find_elem {A} (f : A → bool) (l : list A) x :
  List.find f l = Some x → x ∈ l ∧ f x = true.
Proof.
  induction l as [|y l IH]; simpl; [done|].
  destruct (f y) eqn:Hy.
  - intros [= ->]. split; [apply list_elem_of_here|done].
  - intros [Hin Hx]%IH. split; [by apply list_elem_of_further|done].
Qed.

(** The [dist] of [dragMove] is the distance between the placed offset
    and the ideal offset of the pair. *)
Lemma snap_dist_distance (regionMover regionTarget : Region) mover target :
  Client.snap_dist regionMover regionTarget mover target
  = Spec.distance (Spec.placed_offset mover target)
      (Spec.ideal_offset regionMover regionTarget).
Proof. reflexivity. Qed.

(** The test of [dragMove] on a pair whose pieces both have a region. *)
Lemma flagged_dist regions mover target (regionMover regionTarget : Region) :
  Client.find_region regions (id mover) = Some regionMover →
  Client.find_region regions (id target) = Some regionTarget →
  Spec.flagged regions (mover, target)
  = PrimFloat.ltb (Client.snap_dist regionMover regionTarget mover target)
      Client.SNAP_DISTANCE.
Proof.
  intros Hm Ht. unfold Spec.flagged, Spec.snap_error. simpl.
  rewrite Hm, Ht. simpl. by rewrite snap_dist_distance.
Qed.

(** The inner loop finds the first flagged pair of its mover. *)
Lemma scan_targets_first regions regionMover mover others :
  Client.find_region regions (id mover) = Some regionMover →
  Client.scan_targets regions regionMover mover others
  = (λ pair, groupId pair.2) <$>
      List.find (Spec.flagged regions) (pair mover <$> others).
Proof.
  intros Hm. induction others as [|target rest IH]; simpl; [done|].
  destruct (Client.find_region regions (id target)) as [rt|] eqn:Ht.
  - rewrite (flagged_dist _ _ _ _ _ Hm Ht).
    by destruct (PrimFloat.ltb _ _).
  - unfold Spec.flagged at 1, Spec.snap_error. simpl. by rewrite Hm, Ht.
Qed.

(** A mover without a region has no flagged pair. *)
Lemma no_region_no_flag regions mover others :
  Client.find_region regions (id mover) = None →
  List.find (Spec.flagged regions) (pair mover <$> others) = None.
Proof.
  intros Hm. induction others as [|target rest IH]; simpl; [done|].
  unfold Spec.flagged at 1, Spec.snap_error. simpl. by rewrite Hm.
Qed.

(** Once a candidate with a nonempty id is set, the outer loop stops. *)
Lemma scan_movers_stop regions others g movers :
  g ≠ "" → Client.scan_movers regions others (Some g) movers = Some g.
Proof.
  intros Hg. destruct movers as [|mover rest]; simpl; [done|].
  destruct (String.eqb_spec g ""); [done|done].
Qed.

Lemma scan_movers_first regions others movers :
  (∀ target, target ∈ others → groupId target ≠ "") →
  Client.scan_movers regions others None movers
  = Spec.first_snap regions movers others.
Proof.
  intros Hne. unfold Spec.first_snap, Spec.pairs.
  induction movers as [|mover rest IH]; simpl; [done|].
  rewrite find_app.
  destruct (Client.find_region regions (id mover)) as [rm|] eqn:Hm.
  - rewrite (scan_targets_first _ _ _ _ Hm).
    destruct (List.find _ (pair mover <$> others)) as [[m t]|] eqn:Hfind;
      simpl; [|done].
    apply scan_movers_stop, Hne.
    apply find_elem in Hfind as [(t' & [= _ ->] & Ht)%list_elem_of_fmap _].
    done.
  - by rewrite (no_region_no_flag _ _ _ Hm).
Qed.
End SnapFacts.

(* 2.1 denotes the binary64 value nearest to it, as it does in the
   program. *)
Set Warnings "-inexact-float".

(** C7: the search does not stop at a first flagged pair whose target is
    in the group named by the empty string: [if (snapCandidate) break]
    takes that candidate for none.  A relayed [GROUP_MERGED] with target
    group [""] puts T1 in that group.  In the drag of M1 that follows, the
    first flagged pair is (M1, T1), so the first match is the group [""];
    the outer loop goes on to the mover M2, whose first flagged target is
    T2, and the candidate of the gesture is the group T2. *)
Theorem snap_candidate_empty_group :
  let regions := Examples.empty_group_regions in
  let c :=
    Client.mkState regions Examples.empty_group_store (Some "M1") None in
  let movers :=
    filter (λ p, groupId p = "M") (values (Client.pieceStates c)) in
  let targets :=
    filter (λ p, groupId p ≠ "M") (values (Client.pieceStates c)) in
  Client.on_message (GROUP_MERGED "T1" "" (mkVec3 0 0 0))
    (Client.mkState regions Examples.before_empty_group (Some "M1") None)
  = Some c
  ∧ List.find (Spec.flagged regions) (Spec.pairs movers targets)
    = Some (Examples.piece "M1" "M" 0 5 0, Examples.piece "T1" "" 1 5 0)
  ∧ Spec.first_snap regions movers targets = Some ""
  ∧ (Client.snapCandidateGroupId ∘ fst) <$> Client.dragMove (mkVec3 0 0 0) c
    = Some (Some "T2").
Proof. split_and!; by vm_compute. Qed.

(** X18: snap detection for group ids that are nonempty strings.  The
    snap candidate set by [dragMove] is the group of the target of the
    first flagged pair, pairs taken in the order of the mover pieces and
    then of the pieces of other groups; nothing after that pair is
    examined.  A pair is flagged exactly when the distance between its
    placed offset (x and z, the vertical axis ignored) and its ideal
    centroid offset is strictly below 4.0, which is the test [dragMove]
    makes.  With centroids (2,0) apart, a mover placed 2.1 from the target
    is flagged, and one placed 10 from it is not. *)
Theorem snap_candidate_first_flagged :
  (∀ delta c c' sent d dragged,
     Client.dragMove delta c = Some (c', sent) →
     Client.draggedPieceId c = Some d → d ≠ "" →
     get (Client.pieceStates c) d = Some dragged →
     (∀ p, p ∈ values (Client.pieceStates c') → groupId p ≠ "") →
     Client.snapCandidateGroupId c'
     = Spec.first_snap (Client.puzzleRegions c)
         (filter (λ p, groupId p = groupId dragged)
            (values (Client.pieceStates c')))
         (filter (λ p, groupId p ≠ groupId dragged)
            (values (Client.pieceStates c'))))
  ∧ (∀ regions mover target regionMover regionTarget,
       Client.find_region regions (id mover) = Some regionMover →
       Client.find_region regions (id target) = Some regionTarget →
       Spec.snap_error regions mover target
       = Some (Spec.distance (Spec.placed_offset mover target)
                 (Spec.ideal_offset regionMover regionTarget))
       ∧ Spec.flagged regions (mover, target)
         = PrimFloat.ltb
             (Client.snap_dist regionMover regionTarget mover target) 4.0)
  ∧ (let c :=
       Client.mkState Examples.snap_regions (Examples.placed 2.1) (Some "M")
         None in
     Spec.snap_error Examples.snap_regions
       (Examples.piece "M" "M" 2.1 5 0) (Examples.piece "T" "T" 0 5 0)
     = Some 0.10000000000000009%float
     ∧ (Client.snapCandidateGroupId ∘ fst) <$> Client.dragMove (mkVec3 0 0 0) c
       = Some (Some "T"))
  ∧ (let c :=
       Client.mkState Examples.snap_regions (Examples.placed 10) (Some "M")
         None in
     Spec.snap_error Examples.snap_regions
       (Examples.piece "M" "M" 10 5 0) (Examples.piece "T" "T" 0 5 0)
     = Some 8%float
     ∧ (Client.snapCandidateGroupId ∘ fst) <$> Client.dragMove (mkVec3 0 0 0) c
       = Some None).
Proof.
  split_and!.
  - intros delta c c' sent d dragged Hmove Hd Hne Hget Hgroups.
    unfold Client.dragMove in Hmove. rewrite Hd in Hmove. simpl in Hmove.
    destruct (String.eqb_spec d ""); [done|]. simpl in Hmove.
    rewrite Hget in Hmove. simpl in Hmove.
    injection Hmove as <- _. simpl in *. unfold Client.detect_snap.
    apply scan_movers_first. intros target [_ Hin]%list_elem_of_filter.
    by apply Hgroups.
  - intros regions mover target rm rt Hm Ht. split.
    + unfold Spec.snap_error. by rewrite Hm, Ht.
    + by apply flagged_dist.
  - split; by vm_compute.
  - split; by vm_compute.
Qed.

Lemma snap_candidate_first_flagged_witness :
  let c :=
    Client.mkState Examples.snap_regions (Examples.placed 2.1) (Some "M")
      None in
  ∃ c' sent, Client.dragMove (mkVec3 1 0 0) c = Some (c', sent)
    ∧ Client.snapCandidateGroupId c'
      = Spec.first_snap Examples.snap_regions
          (filter (λ p, groupId p = "M") (values (Client.pieceStates c')))
          (filter (λ p, groupId p ≠ "M") (values (Client.pieceStates c'))).
Proof.
  intros c. eexists _, _. split; [reflexivity|].
  apply (proj1 snap_candidate_first_flagged (mkVec3 1 0 0) c _ _ "M"
           (Examples.piece "M" "M" 2.1 5 0) eq_refl eq_refl).
  - discriminate.
  - reflexivity.
  - intros p Hp. unfold values in Hp. simpl in Hp.
    repeat (apply elem_of_cons in Hp as [->|Hp]; [discriminate|]).
    by apply elem_of_nil in Hp.
Defined.

(* ================================================================== *)
(** ** Completion *)
(* ================================================================== *)

Section CompletionFacts.
Implicit Types (st : Store) (s t g : string) (off : Vec3) (p : PieceState)
  (c : Client.State) (regions : list Region).

Lemma head_update_values (f : PieceState → PieceState) st :
  head (values (update_values f st)) = f <$> head (values st).
Proof. by destruct st. Qed.

Lemma uniqueGroups_same (f : PieceState → PieceState) st :
  (∀ p, groupId (f p) = groupId p) →
  uniqueGroups (update_values f st) = uniqueGroups st.
Proof.
  intros Hf. unfold uniqueGroups.
  rewrite values_update_values, <- list_fmap_compose.
  f_equal. apply list_fmap_ext. intros _ p _. apply Hf.
Qed.

Lemma one_group_all st g p :
  size (uniqueGroups st) = 1 → g ∈ uniqueGroups st → p ∈ values st →
  groupId p = g.
Proof.
  intros Hone Hg Hp. apply (size_singleton_inv (uniqueGroups st)); [done| |done].
  apply elem_of_uniqueGroups. eauto.
Qed.

Lemma size_merge_one s t off st :
  size (uniqueGroups st) = 1 →
  size (uniqueGroups (Server.merge s t off st)) = 1.
Proof.
  intros Hone. rewrite uniqueGroups_merge. case_decide as Hs; [|done].
  replace ({[t]} ∪ uniqueGroups st ∖ {[s]}) with ({[t]} : gset string).
  - apply size_singleton.
  - apply set_eq. intros x.
    rewrite elem_of_union, elem_of_difference, !elem_of_singleton.
    split; [by left|]. intros [?|[Hx Hne]]; [done|].
    destruct Hne. by apply (size_singleton_inv (uniqueGroups st)).
Qed.

Lemma merge_local_wf g off s st :
  wf_store st →
  Client.merge_local g off (filter (λ p, groupId p = s) (values st)) st
  = Server.merge s g off st.
Proof. apply merge_source_wf. Qed.

Lemma complete_final_one regions st :
  wf_store st → size (uniqueGroups st) = 1 →
  Client.complete_final regions st
  = Some (update_values
            (λ p, if Client.has_region regions (id p) then solve p else p) st).
Proof.
  intros Hwf Hone. unfold Client.complete_final. rewrite decide_True by done.
  destruct st as [|[k p0] st']; [done|].
  cbn [values fmap list_fmap snd head].
  change (p0 :: st'.*2) with (values ((k, p0) :: st')).
  rewrite (foldl_mutate_filter id solve (λ p, groupId p = groupId p0)) by done.
  f_equal. apply update_values_ext. intros p Hp.
  rewrite decide_True; [done|].
  apply (one_group_all ((k, p0) :: st')); [done| |done].
  rewrite uniqueGroups_cons. set_solver.
Qed.

Lemma complete_final_many regions st :
  size (uniqueGroups st) ≠ 1 → Client.complete_final regions st = Some st.
Proof. intros H. unfold Client.complete_final. by rewrite decide_False. Qed.

Lemma move_group_fst g delta st :
  wf_store st →
  (Client.move_group g delta st).1
  = update_values
      (λ p, if decide (groupId p = g)
            then with_position (translate (position p) delta) p else p) st.
Proof.
  intros Hwf.
  rewrite <- (foldl_put_filter id
                (λ p, with_position (translate (position p) delta) p)
                (λ p, groupId p = g)) by done.
  unfold Client.move_group.
  assert (∀ (l : list PieceState) (acc : Store) (msgs : list ClientMessage),
    (foldl (λ (acc : Store * list ClientMessage) piece,
              if decide (groupId piece = g) then
                let newPos := translate (position piece) delta in
                (put (id piece) (with_position newPos piece) acc.1,
                 acc.2 ++ [MOVE_PIECE (id piece) newPos])
              else acc)
           (acc, msgs) l).1
    = foldl (λ acc p,
               put (id p) (with_position (translate (position p) delta) p) acc)
            acc (filter (λ p, groupId p = g) l)) as Hfold.
  { induction l as [|p l IH]; intros acc msgs; [done|].
    rewrite filter_cons. simpl. case_decide; simpl; apply IH. }
  apply Hfold.
Qed.

(** The store's view of completeness, unfolded. *)
Lemma isComplete_true loading c :
  Client.isComplete loading c = true
  ↔ loading = false
    ∧ 0 < length (Client.puzzleRegions c)
    ∧ size (uniqueGroups (Client.pieceStates c)) = 1
    ∧ ∃ p, head (values (Client.pieceStates c)) = Some p ∧ isSolved p = true.
Proof.
  unfold Client.isComplete.
  rewrite !andb_true_iff, negb_true_iff, !bool_decide_eq_true.
  destruct (head (values (Client.pieceStates c))) as [p|].
  - split; [intros [[[??]?]?]; eauto 10|].
    by intros (?&?&?&?&[= <-]&?).
  - split; [by intros [_ ?]|]. by intros (?&?&?&?&?&?).
Qed.

(** An update of the stored values that keeps the groups one and never
    clears a solved flag keeps the store complete. *)
Lemma isComplete_update loading c c' (f : PieceState → PieceState) :
  Client.puzzleRegions c' = Client.puzzleRegions c →
  Client.pieceStates c' = update_values f (Client.pieceStates c) →
  size (uniqueGroups (Client.pieceStates c')) = 1 →
  (∀ p, isSolved p = true → isSolved (f p) = true) →
  Client.isComplete loading c = true → Client.isComplete loading c' = true.
Proof.
  intros Hreg Hst Hone Hf (Hl & Hr & _ & p & Hp & Hs)%isComplete_true.
  apply isComplete_true. rewrite Hreg. split_and!; [done..|].
  exists (f p). rewrite Hst, head_update_values, Hp. auto.
Qed.
End CompletionFacts.

Section CompletionSteps.
Implicit Types (st : Store) (s t g : string) (off : Vec3) (p : PieceState)
  (c : Client.State) (regions : list Region).

Lemma solved_all st p :
  p ∈ values (update_values solve st) →
  c1 (position p) = 0%float ∧ isSolved p = true.
Proof.
  rewrite values_update_values. by intros (q & -> & _)%list_elem_of_fmap.
Qed.

(** What [dragEnd] returns on a mirror that stores each piece under its
    id: either the pieces are as they were and nothing is sent, or one
    merge is applied, checked for completion and sent. *)
Lemma dragEnd_cases c c' sent :
  wf_store (Client.pieceStates c) →
  Client.dragEnd c = Some (c', sent) →
  Client.puzzleRegions c' = Client.puzzleRegions c
  ∧ ((Client.pieceStates c' = Client.pieceStates c ∧ sent = [])
     ∨ ∃ a b off,
         sent = [MERGE_GROUP a b off]
         ∧ Client.complete_final (Client.puzzleRegions c)
             (Server.merge a b off (Client.pieceStates c))
           = Some (Client.pieceStates c')).
Proof.
  intros Hwf. unfold Client.dragEnd.
  destruct (truthy (Client.draggedPieceId c)); [|intros [= <- <-]; auto].
  destruct (truthy (Client.snapCandidateGroupId c)); [|intros [= <- <-]; auto].
  destruct (Client.draggedPieceId c) as [d|]; [|done].
  destruct (Client.snapCandidateGroupId c) as [sc|]; [|done]. simpl.
  destruct (get (Client.pieceStates c) d) as [dragged|]; [|done]. simpl.
  rewrite merge_local_wf by done.
  destruct (Client.complete_final _ _) as [st'|] eqn:Hfinal; [|done]. simpl.
  intros [= <- <-]. split; [done|]. right. eauto.
Qed.

Lemma group_merged_completes c s t off :
  wf_store (Client.pieceStates c) →
  size (uniqueGroups (Client.merge_source s t off (Client.pieceStates c))) = 1 →
  ∃ c', Client.on_message (GROUP_MERGED s t off) c = Some c'
    ∧ ∀ p, p ∈ values (Client.pieceStates c') →
        c1 (position p) = 0%float ∧ isSolved p = true.
Proof.
  intros Hwf Hone. rewrite merge_source_wf in Hone by done. simpl.
  rewrite on_GROUP_MERGED_wf by done. eexists. split; [done|].
  simpl. rewrite decide_True by done. apply solved_all.
Qed.

Lemma dragEnd_completes c c' a b off :
  wf_store (Client.pieceStates c) →
  (∀ p, p ∈ values (Client.pieceStates c) →
     Client.has_region (Client.puzzleRegions c) (id p) = true) →
  Client.dragEnd c = Some (c', [MERGE_GROUP a b off]) →
  size (uniqueGroups (Client.pieceStates c')) = 1 →
  ∀ p, p ∈ values (Client.pieceStates c') →
    c1 (position p) = 0%float ∧ isSolved p = true.
Proof.
  intros Hwf Hreg Hend Hone.
  apply dragEnd_cases in Hend as [_ Hcases]; [|done].
  destruct Hcases as [[_ [=]]|(a' & b' & off' & _ & Hfinal)].
  set (st1 := Server.merge a' b' off' (Client.pieceStates c)) in *.
  assert (wf_store st1) as Hwf1 by by apply wf_store_merge.
  destruct (decide (size (uniqueGroups st1) = 1)) as [Hone1|Hmany].
  - rewrite complete_final_one in Hfinal by done. injection Hfinal as <-.
    intros p. rewrite values_update_values.
    intros (q & -> & Hq)%list_elem_of_fmap.
    unfold st1, Server.merge in Hq. rewrite values_update_values in Hq.
    apply list_elem_of_fmap in Hq as (q0 & -> & Hq0).
    by rewrite id_relabel, Hreg.
  - rewrite complete_final_many in Hfinal by done. injection Hfinal as Heq.
    by rewrite <- Heq in Hone.
Qed.

Lemma check_completion_twice st st1 :
  wf_store st →
  Client.check_completion st = Some st1 →
  Client.check_completion st1 = Some st1.
Proof.
  intros Hwf. rewrite check_completion_wf by done. intros [= <-].
  case_decide as Hone.
  - rewrite check_completion_wf by by apply wf_store_solve.
    rewrite uniqueGroups_solve, decide_True by done.
    rewrite update_values_compose. reflexivity.
  - rewrite check_completion_wf by done. by rewrite decide_False.
Qed.

Lemma group_merged_keeps_complete loading c s t off :
  wf_store (Client.pieceStates c) →
  Client.isComplete loading c = true →
  ∃ c', Client.on_message (GROUP_MERGED s t off) c = Some c'
        ∧ Client.isComplete loading c' = true.
Proof.
  intros Hwf Hc. simpl. rewrite on_GROUP_MERGED_wf by done.
  eexists. split; [done|].
  pose proof Hc as (_ & _ & Hone & _)%isComplete_true.
  apply (size_merge_one s t off) in Hone. simpl.
  rewrite decide_True by done.
  eapply (isComplete_update _ c _ (solve ∘ Server.relabel s t off));
    [done| | |by intros p Hp|done]; simpl.
  - unfold Server.merge. by rewrite update_values_compose.
  - by rewrite uniqueGroups_solve.
Qed.

Lemma game_completed_keeps_complete loading c :
  wf_store (Client.pieceStates c) →
  Client.isComplete loading c = true →
  ∃ c', Client.on_message GAME_COMPLETED c = Some c'
        ∧ Client.isComplete loading c' = true.
Proof.
  intros Hwf Hc. simpl. unfold Client.on_GAME_COMPLETED.
  rewrite complete_all_wf by done. simpl. eexists. split; [done|].
  pose proof Hc as (_ & _ & Hone & _)%isComplete_true.
  eapply (isComplete_update _ c _ solve); [done|done| |by intros p Hp|done].
  simpl. by rewrite uniqueGroups_solve.
Qed.

Lemma dragMove_keeps_complete loading c c' delta sent :
  wf_store (Client.pieceStates c) →
  Client.isComplete loading c = true →
  Client.dragMove delta c = Some (c', sent) →
  Client.isComplete loading c' = true.
Proof.
  intros Hwf Hc. unfold Client.dragMove.
  destruct (truthy (Client.draggedPieceId c)); [|by intros [= <- _]].
  destruct (Client.draggedPieceId c) as [d|]; [|done]. simpl.
  destruct (get (Client.pieceStates c) d) as [dragged|]; [|done]. simpl.
  intros [= <- _].
  pose proof Hc as (_ & _ & Hone & _)%isComplete_true.
  eapply (isComplete_update _ c _ _); [done| | |  |done]; simpl.
  - by apply move_group_fst.
  - rewrite move_group_fst by done.
    rewrite uniqueGroups_same; [done|]. intros p. by case_decide.
  - intros p Hp. simpl. by case_decide.
Qed.

Lemma dragEnd_keeps_complete loading c c' sent :
  wf_store (Client.pieceStates c) →
  Client.isComplete loading c = true →
  Client.dragEnd c = Some (c', sent) →
  Client.isComplete loading c' = true.
Proof.
  intros Hwf Hc Hend.
  pose proof Hc as (Hl & Hr & Hone & p0 & Hp0 & Hs0)%isComplete_true.
  apply dragEnd_cases in Hend as [Hreg Hcases]; [|done].
  destruct Hcases as [[Hst _]|(a & b & off & _ & Hfinal)].
  - apply isComplete_true. rewrite Hreg, Hst. eauto 10.
  - apply (size_merge_one a b off) in Hone.
    rewrite complete_final_one in Hfinal by by (apply wf_store_merge || done).
    injection Hfinal as Hst.
    eapply (isComplete_update _ c _
              ((λ p, if Client.has_region (Client.puzzleRegions c) (id p)
                     then solve p else p) ∘ Server.relabel a b off));
      [done| | | |done].
    + rewrite <- Hst. unfold Server.merge. by rewrite update_values_compose.
    + rewrite <- Hst. rewrite uniqueGroups_same; [done|].
      intros p. by destruct (Client.has_region _ _).
    + intros p Hp. simpl. destruct (Client.has_region _ _); [done|].
      by rewrite isSolved_relabel.
Qed.
End CompletionSteps.

(** C4 as stated fails in its last part: a [PIECE_MOVED] overwrites the
    piece's group with the one the message carries, so a mirror that is
    complete becomes incomplete when the server relays a move that it
    applied before the last merge reached it. *)
Lemma piece_moved_reopens_completed :
  let c := Examples.client Examples.solved_pair None in
  Client.isComplete false c = true
  ∧ Client.isComplete false <$>
      Client.on_message (PIECE_MOVED "P2" (mkVec3 3 7 0) "P2") c
    = Some false.
Proof. split; by vm_compute. Qed.

(** C4, amended: on a client mirror that stores each piece under its id,
    whenever a merge (a handled [GROUP_MERGED], or the merge of [dragEnd]
    on a mirror whose pieces all have a region) leaves exactly one group,
    every piece's vertical coordinate is set to 0 and its solved flag to
    true; running the completion check again changes nothing; and a
    complete mirror stays complete under every further [GROUP_MERGED],
    [GAME_COMPLETED], [dragMove] and [dragEnd]. *)
Theorem completion_transition :
  (∀ c s t off,
     wf_store (Client.pieceStates c) →
     size (uniqueGroups (Client.merge_source s t off (Client.pieceStates c)))
     = 1 →
     ∃ c', Client.on_message (GROUP_MERGED s t off) c = Some c'
       ∧ ∀ p, p ∈ values (Client.pieceStates c') →
           c1 (position p) = 0%float ∧ isSolved p = true)
  ∧ (∀ c c' a b off,
       wf_store (Client.pieceStates c) →
       (∀ p, p ∈ values (Client.pieceStates c) →
          Client.has_region (Client.puzzleRegions c) (id p) = true) →
       Client.dragEnd c = Some (c', [MERGE_GROUP a b off]) →
       size (uniqueGroups (Client.pieceStates c')) = 1 →
       ∀ p, p ∈ values (Client.pieceStates c') →
         c1 (position p) = 0%float ∧ isSolved p = true)
  ∧ (∀ st st1,
       wf_store st →
       Client.check_completion st = Some st1 →
       Client.check_completion st1 = Some st1)
  ∧ (∀ loading c,
       wf_store (Client.pieceStates c) →
       Client.isComplete loading c = true →
       (∀ s t off,
          ∃ c', Client.on_message (GROUP_MERGED s t off) c = Some c'
                ∧ Client.isComplete loading c' = true)
       ∧ (∃ c', Client.on_message GAME_COMPLETED c = Some c'
                ∧ Client.isComplete loading c' = true)
       ∧ (∀ delta c' sent,
            Client.dragMove delta c = Some (c', sent) →
            Client.isComplete loading c' = true)
       ∧ (∀ c' sent,
            Client.dragEnd c = Some (c', sent) →
            Client.isComplete loading c' = true)).
Proof.
  split_and!.
  - apply group_merged_completes.
  - apply dragEnd_completes.
  - apply check_completion_twice.
  - intros loading c Hwf Hc. split_and!.
    + intros s t off. by apply group_merged_keeps_complete.
    + by apply game_completed_keeps_complete.
    + intros delta c' sent. by apply dragMove_keeps_complete.
    + intros c' sent. by apply dragEnd_keeps_complete.
Qed.

Lemma completion_transition_witness :
  (∃ c', Client.on_message (GROUP_MERGED "P2" "P1" (mkVec3 1 0 0))
           (Examples.client Examples.two None) = Some c'
     ∧ ∀ p, p ∈ values (Client.pieceStates c') →
         c1 (position p) = 0%float ∧ isSolved p = true)
  ∧ (∃ c', Client.on_message (GROUP_MERGED "P1" "P2" (mkVec3 1 0 0))
             (Examples.client Examples.solved_pair None) = Some c'
       ∧ Client.isComplete false c' = true).
Proof.
  destruct completion_transition as (Hfire & _ & _ & Hkeep). split.
  - apply Hfire; [concrete|]. by vm_compute.
  - apply (Hkeep false (Examples.client Examples.solved_pair None));
      [concrete|]. by vm_compute.
Defined.

(* ================================================================== *)
(** ** Further properties: the session store *)
(* ================================================================== *)

Section PutFacts.
Context {V : Type}.
Implicit Types (o : list (string * V)) (k : string) (v : V).

Lemma Forall_put (P : string * V → Prop) o k v :
  Forall P o → P (k, v) → Forall P (put k v o).
Proof.
  intros Ho Hkv. induction o as [|[k' v'] o IH]; simpl.
  - by apply Forall_singleton.
  - apply Forall_cons in Ho as [Hh Ht].
    destruct (decide (k = k')) as [->|Hne]; apply Forall_cons; auto.
Qed.

Lemma elem_of_keys_put o k v k' : k' ∈ keys (put k v o) ↔ k' = k ∨ k' ∈ keys o.
Proof.
  destruct (decide (k ∈ keys o)) as [Hin|Hout].
  - rewrite keys_put_present by done. split; [auto|]. by intros [->|?].
  - rewrite keys_put_absent by done. rewrite elem_of_app, list_elem_of_singleton.
    tauto.
Qed.

Lemma NoDup_keys_put o k v : NoDup (keys o) → NoDup (keys (put k v o)).
Proof.
  intros Hnd. destruct (decide (k ∈ keys o)) as [Hin|Hout].
  - by rewrite keys_put_present.
  - rewrite keys_put_absent by done. apply NoDup_app. split_and!; [done| |].
    + intros x Hx ->%list_elem_of_singleton. done.
    + apply NoDup_singleton.
Qed.

Lemma own_keys_put (kf : V → string) o k v :
  own_keys kf o → kf v = k → own_keys kf (put k v o).
Proof.
  intros [Hnd Hall] Hk. split; [by apply NoDup_keys_put|].
  by apply Forall_put.
Qed.

Lemma own_keys_get (kf : V → string) o k v :
  own_keys kf o → get o k = Some v → kf v = k.
Proof.
  intros [_ Hall] Hget%get_Some_elem.
  by apply (proj1 (Forall_forall _ _) Hall (k, v)).
Qed.

Lemma values_put_elem o k v x :
  x ∈ values (put k v o) → x = v ∨ x ∈ values o.
Proof.
  unfold values. induction o as [|[k' v'] o IH]; simpl.
  - intros ->%list_elem_of_singleton. by left.
  - destruct (decide (k = k')) as [->|Hne]; simpl;
      rewrite !elem_of_cons; intros [->|Hx]; auto.
    destruct (IH Hx); auto.
Qed.
End PutFacts.

Section ServerInvariants.
Implicit Types (st : Store) (s : Server.Session) (ws : Server.Conn)
  (msg : ClientMessage) (p : PieceState).

Lemma moved_state_present pieceId pos st p :
  get st pieceId = Some p →
  Server.moved_state pieceId pos st = Some (with_position pos p).
Proof. intros Hp. unfold Server.moved_state. by rewrite Hp. Qed.

Lemma move_piece_present pieceId pos st p :
  get st pieceId = Some p →
  Server.move_piece pieceId pos st = put pieceId (with_position pos p) st.
Proof.
  intros Hp. unfold Server.move_piece. by rewrite (moved_state_present _ _ _ p).
Qed.

Lemma moved_state_id pieceId pos st q :
  wf_store st → Server.moved_state pieceId pos st = Some q → id q = pieceId.
Proof.
  intros Hwf. unfold Server.moved_state.
  destruct (get st pieceId) as [p|] eqn:Hp.
  - intros [= <-]. simpl. by apply (own_keys_get id st).
  - destruct (inherited pieceId); [done|]. by intros [= <-].
Qed.

Lemma moved_state_isSolved pieceId pos st q :
  Server.moved_state pieceId pos st = Some q →
  isSolved q = false ∨ ∃ p, get st pieceId = Some p ∧ isSolved q = isSolved p.
Proof.
  unfold Server.moved_state. destruct (get st pieceId) as [p|] eqn:Hp.
  - intros [= <-]. right. by exists p.
  - destruct (inherited pieceId); [done|]. intros [= <-]. by left.
Qed.

Lemma move_piece_other pieceId pos st k :
  k ≠ pieceId → get (Server.move_piece pieceId pos st) k = get st k.
Proof.
  intros Hne. unfold Server.move_piece.
  destruct (Server.moved_state pieceId pos st); [|done].
  by apply get_put_ne.
Qed.

Lemma handle_wf ws msg s :
  wf_store (Server.pieceStates s) →
  wf_store (Server.pieceStates (Server.handle ws msg s).1).
Proof.
  intros Hwf. destruct msg as [pieceId pos|a b off]; simpl.
  - unfold Server.move_piece.
    destruct (Server.moved_state pieceId pos _) as [q|] eqn:Hq; [|done].
    apply own_keys_put; [done|]. by apply (moved_state_id _ pos _ _ Hwf).
  - by apply wf_store_merge.
Qed.

Lemma handle_unsolved ws msg s :
  (∀ p, p ∈ values (Server.pieceStates s) → isSolved p = false) →
  ∀ p, p ∈ values (Server.pieceStates (Server.handle ws msg s).1) →
    isSolved p = false.
Proof.
  intros Hs p. destruct msg as [pieceId pos|a b off]; simpl.
  - unfold Server.move_piece.
    destruct (Server.moved_state pieceId pos _) as [q|] eqn:Hq;
      [|by apply Hs].
    intros [->|Hp]%values_put_elem; [|by apply Hs].
    apply moved_state_isSolved in Hq as [Hq|(p0 & Hp0 & ->)]; [done|].
    apply Hs. apply get_Some_elem in Hp0. apply list_elem_of_fmap.
    by exists (pieceId, p0).
  - unfold Server.merge. rewrite values_update_values.
    intros (q & -> & Hq)%list_elem_of_fmap. rewrite isSolved_relabel. auto.
Qed.

Lemma handle_same_group ws msg s k1 k2 p1 p2 :
  get (Server.pieceStates s) k1 = Some p1 →
  get (Server.pieceStates s) k2 = Some p2 →
  groupId p1 = groupId p2 →
  ∃ q1 q2,
    get (Server.pieceStates (Server.handle ws msg s).1) k1 = Some q1
    ∧ get (Server.pieceStates (Server.handle ws msg s).1) k2 = Some q2
    ∧ groupId q1 = groupId q2.
Proof.
  intros H1 H2 Hg. destruct msg as [pieceId pos|a b off]; simpl.
  - assert (∀ k p, get (Server.pieceStates s) k = Some p →
              ∃ q, get (Server.move_piece pieceId pos (Server.pieceStates s)) k
                   = Some q ∧ groupId q = groupId p) as Hkeep.
    { intros k p Hk. destruct (decide (pieceId = k)) as [->|Hne].
      - rewrite (move_piece_present _ _ _ p), get_put_eq by done.
        by eexists.
      - rewrite move_piece_other by done. eauto. }
    destruct (Hkeep _ _ H1) as (q1 & Hq1 & Hg1).
    destruct (Hkeep _ _ H2) as (q2 & Hq2 & Hg2).
    exists q1, q2. split_and!; [done..|congruence].
  - unfold Server.merge. rewrite !get_update_values, H1, H2. simpl.
    eexists _, _. split_and!; [done..|].
    by rewrite !groupId_relabel, Hg.
Qed.
End ServerInvariants.

(** X1: every intent keeps the session store well formed (each state
    under its own id, one entry per key) and never marks a piece solved:
    the server holds no solved piece at any time. *)
Theorem server_store_invariant (msgs : list (Server.Conn * ClientMessage))
    (s : Server.Session) :
  wf_store (Server.pieceStates s) →
  (∀ p, p ∈ values (Server.pieceStates s) → isSolved p = false) →
  wf_store (Server.pieceStates (Registry.run msgs s))
  ∧ ∀ p, p ∈ values (Server.pieceStates (Registry.run msgs s)) →
      isSolved p = false.
Proof.
  unfold Registry.run. revert s.
  induction msgs as [|[ws msg] msgs IH]; intros s Hwf Hs; simpl; [done|].
  apply IH; [by apply handle_wf|by apply handle_unsolved].
Qed.

Lemma server_store_invariant_witness :
  let s :=
    Registry.run
      [(Examples.alice, MOVE_PIECE "P1" (mkVec3 1 2 3));
       (Examples.bob, MOVE_PIECE "P2" (mkVec3 4 5 6));
       (Examples.alice, MERGE_GROUP "P2" "P1" (mkVec3 1 0 0))]
      (Server.mkSession [Examples.alice; Examples.bob] []) in
  wf_store (Server.pieceStates s)
  ∧ ∀ p, p ∈ values (Server.pieceStates s) → isSolved p = false.
Proof.
  apply server_store_invariant.
  - concrete.
  - intros p Hp. by apply elem_of_nil in Hp.
Defined.

(** X2: the server never splits a group: two pieces that share a group
    are both still present and still share a group after any sequence of
    [MOVE_PIECE] and [MERGE_GROUP] intents. *)
Theorem server_groups_never_split (msgs : list (Server.Conn * ClientMessage))
    (s : Server.Session) (k1 k2 : string) (p1 p2 : PieceState) :
  get (Server.pieceStates s) k1 = Some p1 →
  get (Server.pieceStates s) k2 = Some p2 →
  groupId p1 = groupId p2 →
  ∃ q1 q2,
    get (Server.pieceStates (Registry.run msgs s)) k1 = Some q1
    ∧ get (Server.pieceStates (Registry.run msgs s)) k2 = Some q2
    ∧ groupId q1 = groupId q2.
Proof.
  unfold Registry.run. revert s p1 p2.
  induction msgs as [|[ws msg] msgs IH]; intros s p1 p2 H1 H2 Hg; simpl.
  - eauto.
  - destruct (handle_same_group ws msg s k1 k2 p1 p2 H1 H2 Hg)
      as (q1 & q2 & Hq1 & Hq2 & Hq).
    by apply (IH _ q1 q2).
Qed.

Lemma server_groups_never_split_witness :
  ∃ q1 q2,
    get (Server.pieceStates
           (Registry.run
              [(Examples.alice, MOVE_PIECE "P2" (mkVec3 4 5 6));
               (Examples.bob, MERGE_GROUP "P1" "P3" (mkVec3 1 0 0))]
              (Server.mkSession [] Examples.pair_in_P1))) "P1" = Some q1
    ∧ get (Server.pieceStates
             (Registry.run
                [(Examples.alice, MOVE_PIECE "P2" (mkVec3 4 5 6));
                 (Examples.bob, MERGE_GROUP "P1" "P3" (mkVec3 1 0 0))]
                (Server.mkSession [] Examples.pair_in_P1))) "P2" = Some q2
    ∧ groupId q1 = groupId q2.
Proof.
  apply (server_groups_never_split _ _ "P1" "P2"
           (Examples.piece "P1" "P1" 0 5 0) (Examples.piece "P2" "P1" 3 5 0));
    reflexivity.
Defined.

(* ================================================================== *)
(** ** Further properties: the client mirror *)
(* ================================================================== *)

Section MirrorFacts.
Implicit Types (st : Store) (s t g : string) (off delta : Vec3)
  (p : PieceState) (c : Client.State).

Lemma move_group_snd g delta st :
  (Client.move_group g delta st).2
  = (λ p, MOVE_PIECE (id p) (translate (position p) delta)) <$>
      filter (λ p, groupId p = g) (values st).
Proof.
  unfold Client.move_group.
  assert (∀ (l : list PieceState) (acc : Store) (msgs : list ClientMessage),
    (foldl (λ (acc : Store * list ClientMessage) piece,
              if decide (groupId piece = g) then
                let newPos := translate (position piece) delta in
                (put (id piece) (with_position newPos piece) acc.1,
                 acc.2 ++ [MOVE_PIECE (id piece) newPos])
              else acc)
           (acc, msgs) l).2
    = msgs ++ ((λ p, MOVE_PIECE (id p) (translate (position p) delta)) <$>
                 filter (λ p, groupId p = g) l)) as Hfold.
  { induction l as [|p l IH]; intros acc msgs; simpl.
    - by rewrite app_nil_r.
    - rewrite filter_cons. case_decide; simpl; rewrite IH; [|done].
      by rewrite <- app_assoc. }
  apply Hfold.
Qed.

(** Messages each of which is parsed as it was sent arrive as sent. *)
Lemma mapM_exact {A} (f : A → option A) (l : list A) :
  (∀ x, x ∈ l → f x = Some x) → mapM f l = Some l.
Proof.
  induction l as [|x l IH]; intros Hl; [done|]. simpl.
  rewrite Hl by apply list_elem_of_here. simpl.
  rewrite IH; [done|]. intros y Hy. apply Hl. by apply list_elem_of_further.
Qed.

(** The server applying, in order, one [MOVE_PIECE] per selected piece. *)
Lemma moves_cons (f : PieceState → Vec3) (l : list PieceState) k x st :
  k ∉ id <$> l →
  foldl (λ acc p, Server.move_piece (id p) (f p) acc) ((k, x) :: st) l
  = (k, x) :: foldl (λ acc p, Server.move_piece (id p) (f p) acc) st l.
Proof.
  revert st. induction l as [|p l IH]; intros st; simpl; [done|].
  rewrite not_elem_of_cons. intros [Hne Hl].
  replace (Server.move_piece (id p) (f p) ((k, x) :: st))
    with ((k, x) :: Server.move_piece (id p) (f p) st); [by apply IH|].
  unfold Server.move_piece, Server.moved_state. simpl.
  rewrite (decide_False (P := id p = k)) by done.
  destruct (get st (id p)); simpl.
  - by rewrite (decide_False (P := id p = k)).
  - destruct (inherited (id p)); simpl; [done|].
    by rewrite (decide_False (P := id p = k)).
Qed.

Lemma moves_filter (f : PieceState → Vec3) (P : PieceState → Prop)
    `{!∀ p, Decision (P p)} st :
  wf_store st →
  foldl (λ acc p, Server.move_piece (id p) (f p) acc) st
        (filter P (values st))
  = update_values (λ p, if decide (P p) then with_position (f p) p else p) st.
Proof.
  induction st as [|[k v] st IH]; [done|].
  intros (Hk & Hfresh & Hown)%own_keys_cons.
  assert (k ∉ id <$> filter P (values st)) as Hfresh'.
  { intros (p & Hp & Hin%list_elem_of_filter)%list_elem_of_fmap.
    apply Hfresh. apply list_elem_of_fmap. exists p. tauto. }
  unfold values in *. cbn [fmap list_fmap snd update_values fst].
  rewrite filter_cons. destruct (decide (P v)) as [HP|HP]; simpl.
  - rewrite (move_piece_present _ _ _ v)
      by (simpl; by rewrite Hk, decide_True).
    simpl. rewrite Hk, decide_True by done.
    rewrite moves_cons by done. f_equal. by apply IH.
  - rewrite moves_cons by done. f_equal. by apply IH.
Qed.

Lemma run_moves (ws : Server.Conn) (f : PieceState → Vec3)
    (l : list PieceState) (s : Server.Session) :
  Registry.run ((λ p, (ws, MOVE_PIECE (id p) (f p))) <$> l) s
  = Server.mkSession (Server.players s)
      (foldl (λ acc p, Server.move_piece (id p) (f p) acc)
         (Server.pieceStates s) l).
Proof.
  unfold Registry.run. revert s.
  induction l as [|p l IH]; intros s; simpl; [by destruct s|].
  by rewrite IH.
Qed.

Lemma scan_movers_origin regions others sc movers g :
  Client.scan_movers regions others sc movers = Some g →
  sc = Some g ∨ ∃ p, p ∈ others ∧ groupId p = g.
Proof.
  revert sc. induction movers as [|mover rest IH]; intros sc; simpl.
  - by left.
  - destruct (truthy sc); [by left|].
    destruct (Client.find_region regions (id mover)) as [rm|]; [|apply IH].
    destruct (Client.scan_targets regions rm mover others) as [g'|] eqn:Hscan;
      [|apply IH].
    intros [[= ->]|?]%IH; [|by right]. right.
    clear -Hscan. induction others as [|target others IH]; simpl in *; [done|].
    destruct (Client.find_region regions (id target)) as [rt|].
    + destruct (PrimFloat.ltb _ _).
      * injection Hscan as <-. exists target. split; [|done].
        apply list_elem_of_here.
      * destruct (IH Hscan) as (p & Hp & Hg). exists p.
        split; [by apply list_elem_of_further|done].
    + destruct (IH Hscan) as (p & Hp & Hg). exists p.
      split; [by apply list_elem_of_further|done].
Qed.
End MirrorFacts.

(** X3: a client mirror that stores each piece under its id handles a
    [GROUP_MERGED] without failing and ends in step with the server's
    merge of the same arguments: same keys, same ids, groups and
    horizontal coordinates for every piece, and the very same store unless
    exactly one group is left, in which case the client alone floors the
    pieces and marks them solved. *)
Theorem group_merged_agrees_with_server (c : Client.State) (s t : string)
    (off : Vec3) :
  wf_store (Client.pieceStates c) →
  ∃ c', Client.on_message (GROUP_MERGED s t off) c = Some c'
    ∧ keys (Client.pieceStates c')
      = keys (Server.merge s t off (Client.pieceStates c))
    ∧ (∀ k q, get (Server.merge s t off (Client.pieceStates c)) k = Some q →
         ∃ p, get (Client.pieceStates c') k = Some p
           ∧ id p = id q ∧ groupId p = groupId q
           ∧ c0 (position p) = c0 (position q)
           ∧ c2 (position p) = c2 (position q))
    ∧ (size (uniqueGroups (Server.merge s t off (Client.pieceStates c))) ≠ 1 →
         Client.pieceStates c' = Server.merge s t off (Client.pieceStates c))
    ∧ (size (uniqueGroups (Server.merge s t off (Client.pieceStates c))) = 1 →
         Client.pieceStates c'
         = update_values solve (Server.merge s t off (Client.pieceStates c))).
Proof.
  intros Hwf. simpl. rewrite on_GROUP_MERGED_wf by done.
  eexists. split; [done|]. simpl. case_decide as Hone.
  - split_and!; [by rewrite keys_update_values| |done|done].
    intros k q Hq. rewrite get_update_values, Hq. simpl. eauto 10.
  - split_and!; [done| |done|done]. intros k q Hq. eauto 10.
Qed.

Lemma group_merged_agrees_with_server_witness :
  ∃ c', Client.on_message (GROUP_MERGED "P2" "P1" (mkVec3 1 0 0))
          (Examples.client Examples.four None) = Some c'
    ∧ Client.pieceStates c'
      = Server.merge "P2" "P1" (mkVec3 1 0 0) Examples.four.
Proof.
  destruct (group_merged_agrees_with_server
              (Examples.client Examples.four None) "P2" "P1" (mkVec3 1 0 0))
    as (c' & Hc' & _ & _ & Hsame & _); [concrete|].
  exists c'. split; [exact Hc'|]. apply Hsame. by vm_compute.
Defined.

(** X4: on a mirror that stores each piece under its id, every message
    other than a [PIECE_MOVED] that names an inherited member or lacks its
    group is handled without failing, changes neither the regions nor the
    drag state, keeps the mirror well formed and neither adds nor drops a
    key: pieces the mirror does not hold are not created by such a
    message. *)
Theorem on_message_keeps_mirror (msg : ServerMessage) (c : Client.State) :
  wf_store (Client.pieceStates c) →
  match msg with
  | PIECE_MOVED pieceId _ _ => inherited pieceId = false
  | PIECE_MOVED_NO_GROUP _ _ => False
  | GROUP_MERGED _ _ _ | GAME_COMPLETED => True
  end →
  ∃ c', Client.on_message msg c = Some c'
    ∧ wf_store (Client.pieceStates c')
    ∧ keys (Client.pieceStates c') = keys (Client.pieceStates c)
    ∧ Client.puzzleRegions c' = Client.puzzleRegions c
    ∧ Client.draggedPieceId c' = Client.draggedPieceId c
    ∧ Client.snapCandidateGroupId c' = Client.snapCandidateGroupId c.
Proof.
  intros Hwf Hmsg. destruct msg as [pieceId pos g|pieceId pos|s t off|];
    simpl; [|done|..].
  - eexists. split; [done|]. unfold Client.on_PIECE_MOVED.
    case_decide; [done|]. simpl.
    destruct (get (Client.pieceStates c) pieceId) as [p|] eqn:Hp; [|done].
    split_and!; [|apply keys_put_present|done..].
    + apply own_keys_put; [done|]. simpl. by apply (own_keys_get id _ _ _ Hwf).
    + apply dec_stable. intros Hk%get_None_keys. by rewrite Hk in Hp.
  - rewrite on_GROUP_MERGED_wf by done. eexists. split; [done|]. simpl.
    case_decide.
    + split_and!; [by apply wf_store_solve, wf_store_merge| |done..].
      unfold Server.merge. by rewrite !keys_update_values.
    + split_and!; [by apply wf_store_merge| |done..].
      unfold Server.merge. by rewrite keys_update_values.
  - unfold Client.on_GAME_COMPLETED. rewrite complete_all_wf by done. simpl.
    eexists. split; [done|]. simpl.
    split_and!; [by apply wf_store_solve|by rewrite keys_update_values|done..].
Qed.

Lemma on_message_keeps_mirror_witness :
  ∃ c', Client.on_message (PIECE_MOVED "P9" (mkVec3 1 2 3) "P9")
          (Examples.client Examples.two None) = Some c'
    ∧ keys (Client.pieceStates c') = ["P1"; "P2"].
Proof.
  destruct (on_message_keeps_mirror (PIECE_MOVED "P9" (mkVec3 1 2 3) "P9")
              (Examples.client Examples.two None))
    as (c' & Hc' & _ & Hkeys & _); [concrete|reflexivity|].
  exists c'. split; [exact Hc'|exact Hkeys].
Defined.

(** X5: on a mirror that stores each piece under its id, [dragMove]
    translates by [delta] exactly the pieces of the dragged piece's group,
    leaves every other piece, every key, group and solved flag as it is,
    keeps the drag in progress, and sends one [MOVE_PIECE] per moved
    piece, in enumeration order, carrying the piece's new position. *)
Theorem dragMove_moves_group (delta : Vec3) (c : Client.State) (d : string)
    (dragged : PieceState) :
  wf_store (Client.pieceStates c) →
  Client.draggedPieceId c = Some d → d ≠ "" →
  get (Client.pieceStates c) d = Some dragged →
  ∃ c' sent, Client.dragMove delta c = Some (c', sent)
    ∧ Client.pieceStates c'
      = update_values
          (λ p, if decide (groupId p = groupId dragged)
                then with_position (translate (position p) delta) p else p)
          (Client.pieceStates c)
    ∧ sent
      = (λ p, MOVE_PIECE (id p) (translate (position p) delta)) <$>
          filter (λ p, groupId p = groupId dragged)
            (values (Client.pieceStates c))
    ∧ Client.draggedPieceId c' = Some d
    ∧ Client.puzzleRegions c' = Client.puzzleRegions c.
Proof.
  intros Hwf Hd Hne Hget. unfold Client.dragMove. rewrite Hd. simpl.
  destruct (String.eqb_spec d ""); [done|]. simpl. rewrite Hget. simpl.
  eexists _, _. split; [done|]. simpl.
  split_and!; [by apply move_group_fst|apply move_group_snd|done..].
Qed.

Lemma dragMove_moves_group_witness :
  ∃ c' sent,
    Client.dragMove (mkVec3 1 0 2) (Examples.client Examples.pair_in_P1 (Some "P2"))
    = Some (c', sent)
    ∧ sent = [MOVE_PIECE "P1" (mkVec3 1 5 2); MOVE_PIECE "P2" (mkVec3 4 5 2)].
Proof.
  destruct (dragMove_moves_group (mkVec3 1 0 2)
              (Examples.client Examples.pair_in_P1 (Some "P2")) "P2"
              (Examples.piece "P2" "P1" 3 5 0))
    as (c' & sent & Hmove & _ & Hsent & _);
    [concrete|reflexivity|discriminate|reflexivity|].
  exists c', sent. split; [exact Hmove|]. rewrite Hsent. by vm_compute.
Defined.

(** X6: the optimistic move is the authoritative one, for positions
    that cross the wire as they are (finite and not the negative zero):
    when the session store holds the same well-formed piece states as the
    mirror and every intent that [dragMove] sent is parsed by the server
    as it was sent, the server applying the intents received, in order,
    ends with exactly the piece states the mirror has after the move. *)
Theorem dragMove_matches_server (delta : Vec3) (c c' : Client.State)
    (sent : list ClientMessage) (ws : Server.Conn)
    (players : list Server.Conn) :
  wf_store (Client.pieceStates c) →
  Client.dragMove delta c = Some (c', sent) →
  (∀ m, m ∈ sent → Json.intent m = Some m) →
  ∃ received,
    mapM Json.intent sent = Some received
    ∧ Server.pieceStates
        (Registry.run (pair ws <$> received)
           (Server.mkSession players (Client.pieceStates c)))
      = Client.pieceStates c'.
Proof.
  intros Hwf Hmove Hwire. exists sent. split; [by apply mapM_exact|].
  clear Hwire. revert Hmove. unfold Client.dragMove.
  destruct (truthy (Client.draggedPieceId c)); [|by intros [= <- <-]].
  destruct (Client.draggedPieceId c) as [d|]; [|done]. simpl.
  destruct (get (Client.pieceStates c) d) as [dragged|]; [|done]. simpl.
  intros [= <- <-]. simpl.
  rewrite move_group_snd, move_group_fst by done.
  rewrite <- list_fmap_compose.
  rewrite (run_moves ws (λ p, translate (position p) delta)). simpl.
  by apply moves_filter.
Qed.

Lemma dragMove_matches_server_witness :
  ∃ c' sent received,
    Client.dragMove (mkVec3 1 0 2) (Examples.client Examples.pair_in_P1 (Some "P2"))
    = Some (c', sent)
    ∧ mapM Json.intent sent = Some received
    ∧ Server.pieceStates
        (Registry.run (pair Examples.alice <$> received)
           (Server.mkSession [Examples.alice] Examples.pair_in_P1))
      = Client.pieceStates c'.
Proof.
  destruct (dragMove_matches_server (mkVec3 1 0 2)
              (Examples.client Examples.pair_in_P1 (Some "P2"))
              (Client.mkState
                 (Client.puzzleRegions (Examples.client Examples.pair_in_P1 None))
                 [("P1", Examples.piece "P1" "P1" 1 5 2);
                  ("P2", Examples.piece "P2" "P1" 4 5 2)]
                 (Some "P2") None)
              [MOVE_PIECE "P1" (mkVec3 1 5 2); MOVE_PIECE "P2" (mkVec3 4 5 2)]
              Examples.alice [Examples.alice])
    as (received & Hwire & Hsame).
  - concrete.
  - by vm_compute.
  - intros m Hm.
    repeat (apply elem_of_cons in Hm as [->|Hm]; [by vm_compute|]).
    by apply elem_of_nil in Hm.
  - eexists _, _, received. split; [by vm_compute|]. split; [exact Hwire|].
    exact Hsame.
Defined.

(** X7: on a mirror that stores each piece under its id and holds the
    dragged piece, [dragEnd] never fails and always ends the drag.
    Without a snap candidate no piece changes and nothing is sent.  With
    one, exactly one [MERGE_GROUP] from the dragged piece's group to the
    candidate is sent, and the mirror ends with the keys and groups the
    server's merge of that intent gives, and with the very same piece
    states unless exactly one group is left. *)
Theorem dragEnd_outcome (c : Client.State) (d : string) (dragged : PieceState) :
  wf_store (Client.pieceStates c) →
  Client.draggedPieceId c = Some d → d ≠ "" →
  get (Client.pieceStates c) d = Some dragged →
  ∃ c' sent, Client.dragEnd c = Some (c', sent)
    ∧ Client.draggedPieceId c' = None
    ∧ Client.snapCandidateGroupId c' = None
    ∧ Client.puzzleRegions c' = Client.puzzleRegions c
    ∧ (truthy (Client.snapCandidateGroupId c) = false →
         Client.pieceStates c' = Client.pieceStates c ∧ sent = [])
    ∧ (∀ candidate,
         Client.snapCandidateGroupId c = Some candidate → candidate ≠ "" →
         ∃ off,
           let merged :=
             Server.merge (groupId dragged) candidate off
               (Client.pieceStates c) in
           sent = [MERGE_GROUP (groupId dragged) candidate off]
           ∧ keys (Client.pieceStates c') = keys merged
           ∧ uniqueGroups (Client.pieceStates c') = uniqueGroups merged
           ∧ (size (uniqueGroups merged) ≠ 1 →
                Client.pieceStates c' = merged)).
Proof.
  intros Hwf Hd Hne Hget. unfold Client.dragEnd. rewrite Hd. simpl.
  destruct (String.eqb_spec d ""); [done|]. simpl.
  destruct (Client.snapCandidateGroupId c) as [sc|] eqn:Hsc; simpl.
  - destruct (String.eqb_spec sc "") as [->|Hsc_ne]; simpl.
    + eexists _, _. split; [done|]. simpl. split_and!; try done.
      intros candidate [= <-] ?. done.
    + rewrite Hget. simpl. rewrite merge_local_wf by done.
      set (off := Client.align_offset _ _ _).
      set (merged := Server.merge (groupId dragged) sc off (Client.pieceStates c)).
      assert (wf_store merged) as Hwfm by by apply wf_store_merge.
      destruct (decide (size (uniqueGroups merged) = 1)) as [Hone|Hmany].
      * rewrite complete_final_one by done. simpl.
        eexists _, _. split; [done|]. simpl. split_and!; try done.
        intros candidate [= <-] _. exists off. simpl. fold merged.
        split_and!; [done|by rewrite keys_update_values| |done].
        apply uniqueGroups_same. intros p.
        by destruct (Client.has_region _ _).
      * rewrite complete_final_many by done. simpl.
        eexists _, _. split; [done|]. simpl. split_and!; try done.
        intros candidate [= <-] _. by exists off.
  - eexists _, _. split; [done|]. simpl. split_and!; done.
Qed.

Lemma dragEnd_outcome_witness :
  ∃ c' sent,
    Client.dragEnd
      (Client.mkState Examples.snap_regions (Examples.placed 2.1) (Some "M")
         (Some "T"))
    = Some (c', sent)
    ∧ Client.draggedPieceId c' = None
    ∧ ∃ off, sent = [MERGE_GROUP "M" "T" off].
Proof.
  destruct (dragEnd_outcome
              (Client.mkState Examples.snap_regions (Examples.placed 2.1)
                 (Some "M") (Some "T"))
              "M" (Examples.piece "M" "M" 2.1 5 0))
    as (c' & sent & Hend & Hd & _ & _ & _ & Hmerge);
    [concrete|reflexivity|discriminate|reflexivity|].
  exists c', sent. split_and!; [exact Hend|exact Hd|].
  destruct (Hmerge "T" eq_refl) as (off & Hsent & _); [discriminate|].
  by exists off.
Defined.

(** X8: a [MOVE_PIECE] reaches the other mirrors.  Let the piece id be
    a name that is never inherited and the position cross the wire as it
    is (finite and not the negative zero).  Then a client that is sent the
    server's message, holds the piece and is not dragging that very piece
    parses the message as it was sent and ends with the piece at the
    position and in the group the server now stores for it. *)
Theorem piece_moved_syncs_mirror (ws recipient : Server.Conn)
    (s : Server.Session) (pieceId : string) (pos : Vec3)
    (msg : ServerMessage) (c : Client.State) (p : PieceState) :
  (recipient, msg) ∈ (Server.handle ws (MOVE_PIECE pieceId pos) s).2 →
  surely_own pieceId = true →
  Json.vec pos = Some pos →
  get (Client.pieceStates c) pieceId = Some p →
  Client.draggedPieceId c ≠ Some pieceId →
  ∃ received c' p' q,
    Json.delta msg = Some received
    ∧ Client.on_message received c = Some c'
    ∧ get (Client.pieceStates c') pieceId = Some p'
    ∧ get (Server.pieceStates (Server.handle ws (MOVE_PIECE pieceId pos) s).1)
        pieceId = Some q
    ∧ position p' = pos ∧ position q = pos
    ∧ groupId p' = groupId q
    ∧ Server.same_conn recipient ws = false.
Proof.
  intros (_ & Hother & _ & ->)%move_piece_recipients Hown Hwire Hp Hdrag.
  apply andb_true_iff in Hown as [Hown%negb_true_iff _].
  assert (∃ q, Server.moved_state pieceId pos (Server.pieceStates s) = Some q
               ∧ position q = pos) as (q & Hq & Hpos).
  { unfold Server.moved_state. rewrite Hown.
    destruct (get (Server.pieceStates s) pieceId); by eexists. }
  simpl. unfold Server.moved_message, Server.move_piece. rewrite Hq. simpl.
  rewrite Hwire. simpl.
  eexists _, _, _, q. split; [done|]. simpl.
  unfold Client.on_PIECE_MOVED. rewrite decide_False by done. rewrite Hp.
  split; [done|]. simpl. rewrite !get_put_eq. by split_and!.
Qed.

Lemma piece_moved_syncs_mirror_witness :
  ∃ c' p',
    Client.on_message (PIECE_MOVED "P2" (mkVec3 9 5 9) "P2")
      (Examples.client Examples.two None) = Some c'
    ∧ get (Client.pieceStates c') "P2" = Some p'
    ∧ position p' = mkVec3 9 5 9.
Proof.
  destruct (piece_moved_syncs_mirror Examples.alice Examples.bob
              (Server.mkSession [Examples.alice; Examples.bob] Examples.two)
              "P2" (mkVec3 9 5 9) (PIECE_MOVED "P2" (mkVec3 9 5 9) "P2")
              (Examples.client Examples.two None)
              (Examples.piece "P2" "P2" 3 5 0))
    as (received & c' & p' & q & Hwire & Hc' & Hp' & _ & Hpos & _).
  - vm_compute. apply list_elem_of_here.
  - reflexivity.
  - by vm_compute.
  - reflexivity.
  - discriminate.
  - injection Hwire as <-. by exists c', p'.
Defined.

(** X9: the snap candidate that [dragMove] computes is always the group
    of a piece outside the dragged group, hence never the dragged group
    itself; when every piece is in the dragged group there is none. *)
Theorem snap_candidate_other_group (regions : list Region)
    (activeGroupId : string) (st : Store) :
  (∀ g, Client.detect_snap regions activeGroupId st = Some g →
     g ≠ activeGroupId ∧ ∃ p, p ∈ values st ∧ groupId p = g)
  ∧ ((∀ p, p ∈ values st → groupId p = activeGroupId) →
       Client.detect_snap regions activeGroupId st = None).
Proof.
  unfold Client.detect_snap. split.
  - intros g [[=]|(p & [Hp Hin]%list_elem_of_filter & <-)]%scan_movers_origin.
    eauto.
  - intros Hall.
    destruct (Client.scan_movers _ _ _ _) as [g|] eqn:Hscan; [|done].
    apply scan_movers_origin in Hscan
      as [[=]|(p & [Hp Hin]%list_elem_of_filter & _)].
    destruct Hp. by apply Hall.
Qed.

Lemma snap_candidate_other_group_witness :
  Client.detect_snap Examples.snap_regions "P1" Examples.pair_in_P1 = None.
Proof.
  apply (snap_candidate_other_group Examples.snap_regions "P1"
           Examples.pair_in_P1).
  intros p Hp. unfold values in Hp. simpl in Hp.
  repeat (apply elem_of_cons in Hp as [->|Hp]; [reflexivity|]).
  by apply elem_of_nil in Hp.
Defined.

(* ================================================================== *)
(** ** Further properties: the initial mirror *)
(* ================================================================== *)

Section InitInvariants.
Variable Math_sin Math_floor : float → float.
Implicit Types (seed : list float) (server states : Store) (r : Region).

Local Abbreviation spawn := (Client.spawn Math_sin Math_floor).
Local Abbreviation init_regions := (Client.init_regions Math_sin Math_floor).

Lemma init_regions_wf seed server regions states i :
  wf_store server → wf_store states →
  wf_store (init_regions seed server states i regions).
Proof.
  intros Hserver. revert states i.
  induction regions as [|r rest IH]; intros states i Hwf; simpl; [done|].
  apply IH. rewrite init_region_put. apply own_keys_put; [done|].
  destruct (get server (rid r)) as [ps|] eqn:Hps; simpl; [|done].
  by apply (own_keys_get id server).
Qed.

Lemma init_regions_keys seed server regions states i k :
  k ∈ keys (init_regions seed server states i regions)
  ↔ k ∈ keys states ∨ k ∈ rid <$> regions.
Proof.
  revert states i. induction regions as [|r rest IH]; intros states i; simpl.
  - split; [by left|]. intros [?|Hk]; [done|]. by apply elem_of_nil in Hk.
  - rewrite IH, init_region_put, elem_of_keys_put, elem_of_cons. tauto.
Qed.

Lemma init_regions_values (Q : PieceState → Prop) seed server regions
    states i :
  (∀ p, p ∈ values server → Q p) →
  (∀ j r, Q (spawn seed j r)) →
  (∀ p, p ∈ values states → Q p) →
  ∀ p, p ∈ values (init_regions seed server states i regions) → Q p.
Proof.
  intros Hserver Hspawn. revert states i.
  induction regions as [|r rest IH]; intros states i Hstates; simpl; [done|].
  apply IH. intros p. rewrite init_region_put.
  intros [->|Hp]%values_put_elem; [|by apply Hstates].
  destruct (get server (rid r)) as [ps|] eqn:Hps; simpl; [|done].
  apply Hserver. apply get_Some_elem in Hps. apply list_elem_of_fmap.
  by exists (rid r, ps).
Qed.

Lemma has_region_elem regions k :
  k ∈ rid <$> regions → Client.has_region regions k = true.
Proof.
  unfold Client.has_region, Client.find_region.
  induction regions as [|r rest IH]; simpl.
  - intros Hk. by apply elem_of_nil in Hk.
  - destruct (String.eqb_spec (rid r) k) as [|Hne]; [done|].
    intros [?|?]%elem_of_cons; [congruence|by apply IH].
Qed.

Lemma wf_store_value_key (st : Store) p :
  wf_store st → p ∈ values st → id p ∈ keys st.
Proof.
  intros Hwf Hp. rewrite <- (own_keys_values id st Hwf).
  apply list_elem_of_fmap. eauto.
Qed.
End InitInvariants.

(** X10: given well-formed server states, [setPuzzleRegions] builds a
    well-formed mirror whose keys are exactly the region ids and in which
    every piece has a region: the mirror it hands to the message handlers
    and the drag actions is one they handle without failing. *)
Theorem setPuzzleRegions_invariants (Math_sin Math_floor : float → float)
    (regions : list Region) (scatterSeed : list float)
    (currentServerStates : Store) (c : Client.State) :
  wf_store currentServerStates →
  let c' :=
    Client.setPuzzleRegions Math_sin Math_floor regions scatterSeed
      currentServerStates c in
  wf_store (Client.pieceStates c')
  ∧ (∀ k, k ∈ keys (Client.pieceStates c') ↔ k ∈ rid <$> regions)
  ∧ (∀ p, p ∈ values (Client.pieceStates c') →
       Client.has_region (Client.puzzleRegions c') (id p) = true)
  ∧ Client.draggedPieceId c' = Client.draggedPieceId c
  ∧ Client.snapCandidateGroupId c' = Client.snapCandidateGroupId c.
Proof.
  intros Hserver. simpl.
  assert (wf_store (Client.init_regions Math_sin Math_floor scatterSeed
                      currentServerStates [] 0 regions)) as Hwf.
  { apply init_regions_wf; [done|]. split; [apply NoDup_nil_2|done]. }
  assert (∀ k, k ∈ keys (Client.init_regions Math_sin Math_floor scatterSeed
                           currentServerStates [] 0 regions)
               ↔ k ∈ rid <$> regions) as Hkeys.
  { intros k. rewrite init_regions_keys. split; [|by right].
    intros [Hk|?]; [|done]. by apply elem_of_nil in Hk. }
  split_and!; [done|done| |done|done].
  intros p Hp. apply has_region_elem, Hkeys. by apply wf_store_value_key.
Qed.

Lemma setPuzzleRegions_invariants_witness :
  wf_store
    (Client.pieceStates
       (Client.setPuzzleRegions (λ x, x) (λ x, x)
          ((λ k, mkRegion k (mkCenter 0 0)) <$> ["P1"; "P2"; "P3"])
          [1%float; 2%float] Examples.pair_in_P1 (Examples.client [] None))).
Proof.
  apply (setPuzzleRegions_invariants (λ x, x) (λ x, x)
           ((λ k, mkRegion k (mkCenter 0 0)) <$> ["P1"; "P2"; "P3"])
           [1%float; 2%float] Examples.pair_in_P1 (Examples.client [] None)).
  concrete.
Defined.

(** X11: a mirror initialised from server states none of which is solved
    is never complete, whatever the regions and the groups: a puzzle of a
    single piece does not start complete, and neither does the mirror of a
    client joining a session whose pieces are all in one group. *)
Theorem joined_mirror_not_complete (Math_sin Math_floor : float → float)
    (regions : list Region) (scatterSeed : list float)
    (currentServerStates : Store) (c : Client.State) (loading : bool) :
  (∀ p, p ∈ values currentServerStates → isSolved p = false) →
  Client.isComplete loading
    (Client.setPuzzleRegions Math_sin Math_floor regions scatterSeed
       currentServerStates c)
  = false.
Proof.
  intros Hserver. unfold Client.isComplete. simpl.
  destruct (head _) as [p|] eqn:Hhead; [|by rewrite andb_false_r].
  rewrite (init_regions_values Math_sin Math_floor
             (λ p, isSolved p = false) scatterSeed currentServerStates
             regions [] 0 Hserver); [by rewrite andb_false_r|done| |].
  - intros q Hq. by apply elem_of_nil in Hq.
  - by apply head_Some_elem_of.
Qed.

Lemma joined_mirror_not_complete_witness :
  Client.isComplete false
    (Client.setPuzzleRegions (λ x, x) (λ x, x)
       ((λ k, mkRegion k (mkCenter 0 0)) <$> ["P1"; "P2"])
       [1%float; 2%float] Examples.pair_in_P1 (Examples.client [] None))
  = false
  ∧ size (uniqueGroups Examples.pair_in_P1) = 1.
Proof.
  split; [|by vm_compute].
  apply joined_mirror_not_complete.
  intros p Hp. unfold values in Hp. simpl in Hp.
  repeat (apply elem_of_cons in Hp as [->|Hp]; [reflexivity|]).
  by apply elem_of_nil in Hp.
Defined.

(* ================================================================== *)
(** ** Further properties: the registry of sessions *)
(* ================================================================== *)

Section ValuesPut.
Context {V B : Type} (f : V → B).
Implicit Types (o : list (string * V)) (k : string) (v : V).

Lemma values_put_same o k v v' :
  get o k = Some v → f v' = f v → f <$> values (put k v' o) = f <$> values o.
Proof.
  unfold values. induction o as [|[k0 v0] o IH]; simpl; [done|].
  destruct (decide (k = k0)) as [->|Hne]; simpl.
  - intros [= ->] Hf. by rewrite Hf.
  - intros Hget Hf. f_equal. by apply IH.
Qed.

Lemma NoDup_values_put o k v :
  NoDup (f <$> values o) → f v ∉ f <$> values o →
  NoDup (f <$> values (put k v o)).
Proof.
  unfold values. induction o as [|[k0 v0] o IH]; simpl.
  - intros _ _. apply NoDup_singleton.
  - rewrite NoDup_cons, not_elem_of_cons. intros [Hv0 Hnd] [Hne Hv].
    destruct (decide (k = k0)) as [->|Hk]; simpl; apply NoDup_cons.
    + done.
    + split; [|by apply IH].
      intros (x & Hx & [->|Hin]%values_put_elem)%list_elem_of_fmap.
      * by destruct Hne.
      * apply Hv0. apply list_elem_of_fmap. eauto.
Qed.
End ValuesPut.

Section RegistryFacts.
Import Registry.
Implicit Types (reg : Sessions) (s : SessionData) (ws : Server.Conn)
  (k m d : string).

Lemma matches_true m d s :
  matches m d s = true ↔ mapId s = m ∧ difficulty s = d.
Proof. unfold matches. by rewrite andb_true_iff, !String.eqb_eq. Qed.

Lemma wf_sessions_cons k s reg :
  wf_sessions ((k, s) :: reg) →
  session_id s = k ∧ (k ∉ keys reg)
  ∧ ((mapId s, difficulty s)
       ∉ (λ s, (mapId s, difficulty s)) <$> values reg)
  ∧ wf_sessions reg.
Proof.
  intros [Hown Hnd]. pose proof Hown as [Hkeys _].
  apply own_keys_cons in Hown as (Hk & _ & Hown).
  unfold keys in Hkeys. cbn [fmap list_fmap fst] in Hkeys.
  apply NoDup_cons in Hkeys as [Hfresh _].
  unfold values in Hnd. cbn [fmap list_fmap snd] in Hnd.
  apply NoDup_cons in Hnd as [Hpair Hnd]. done.
Qed.

(** Replacing a session by one with the same id, map and difficulty
    keeps the registry well formed. *)
Lemma wf_sessions_put k s s' reg :
  wf_sessions reg → get reg k = Some s →
  session_id s' = session_id s → mapId s' = mapId s →
  difficulty s' = difficulty s →
  wf_sessions (put k s' reg).
Proof.
  intros [Hown Hnd] Hget Hid Hm Hd. split.
  - apply own_keys_put; [done|]. rewrite Hid.
    by apply (own_keys_get session_id reg).
  - rewrite (values_put_same _ reg k s s'); [done|done|]. by rewrite Hm, Hd.
Qed.

Lemma join_existing_None ws m d reg s :
  join_existing ws m d reg = None → s ∈ values reg → matches m d s = false.
Proof.
  unfold values. induction reg as [|[k0 s0] reg IH]; simpl.
  - intros _ Hs. by apply elem_of_nil in Hs.
  - destruct (matches m d s0) eqn:Hm0; [done|].
    destruct (join_existing ws m d reg); [done|].
    intros _ [->|Hs]%elem_of_cons; [done|by apply IH].
Qed.

Lemma join_existing_Some ws m d reg s' reg' :
  wf_sessions reg → join_existing ws m d reg = Some (s', reg') →
  ∃ k s, get reg k = Some s ∧ matches m d s = true
         ∧ s' = add_player ws s ∧ reg' = put k s' reg.
Proof.
  revert s' reg'. induction reg as [|[k0 s0] reg IH]; intros s' reg'; simpl; [done|].
  intros (Hk0 & Hfresh & _ & Hwf)%wf_sessions_cons.
  destruct (matches m d s0) eqn:Hm0.
  - intros [= <- <-]. exists k0, s0. by rewrite !decide_True.
  - destruct (join_existing ws m d reg) as [[s1 reg1]|] eqn:Hjoin; [|done].
    simpl. intros [= <- <-].
    destruct (IH s1 reg1 Hwf eq_refl) as (k & s & Hget & Hm & -> & ->).
    exists k, s. assert (k ≠ k0) as Hne.
    { intros ->. apply Hfresh. apply dec_stable. intros Hk%get_None_keys.
      by rewrite Hk in Hget. }
    by rewrite !decide_False.
Qed.

Lemma join_existing_get ws m d reg k s :
  wf_sessions reg → get reg k = Some s → matches m d s = true →
  join_existing ws m d reg
  = Some (add_player ws s, put k (add_player ws s) reg).
Proof.
  intros Hwf Hget Hm. induction reg as [|[k0 s0] reg IH]; simpl in *; [done|].
  apply wf_sessions_cons in Hwf as (Hk0 & Hfresh & Hpair & Hwf).
  destruct (decide (k = k0)) as [->|Hne].
  - injection Hget as ->. by rewrite Hm.
  - destruct (matches m d s0) eqn:Hm0.
    + destruct Hpair. apply list_elem_of_fmap. exists s. split.
      * apply matches_true in Hm as [-> ->].
        by apply matches_true in Hm0 as [-> ->].
      * apply get_Some_elem in Hget. apply list_elem_of_fmap.
        by exists (k, s).
    + by rewrite (IH Hwf Hget).
Qed.

(** The session a connection ends up in after [JOIN_SESSION]. *)
Lemma JOIN_SESSION_joined ws clients env m d reg :
  wf_sessions reg →
  ∃ k s,
    (JOIN_SESSION ws clients env m d reg).1.2 = Some k
    ∧ get (JOIN_SESSION ws clients env m d reg).1.1 k = Some s
    ∧ (k ∈ keys reg ∨ k = fresh_id env)
    ∧ matches m d s = true
    ∧ wf_sessions (JOIN_SESSION ws clients env m d reg).1.1
    ∧ head (JOIN_SESSION ws clients env m d reg).2
      = Some (ws, SESSION_JOINED (summary s) (config s)
                    (Server.pieceStates (core s))).
Proof.
  intros Hwf. unfold JOIN_SESSION.
  destruct (join_existing ws m d reg) as [[s' reg']|] eqn:Hjoin; simpl.
  - destruct (join_existing_Some _ _ _ _ _ _ Hwf Hjoin)
      as (k & s & Hget & Hm & -> & ->).
    assert (session_id s = k) as Hk
      by by apply (own_keys_get session_id reg); [apply Hwf|].
    exists k, (add_player ws s). rewrite get_put_eq. simpl.
    split_and!; [by rewrite Hk|done| |done| |done].
    + left. apply dec_stable. intros Hnone%get_None_keys.
      by rewrite Hnone in Hget.
    + by apply (wf_sessions_put k s).
  - eexists _, _. rewrite get_put_eq. simpl.
    split_and!; [done|done|by right| | |done].
    + unfold matches. simpl. by rewrite !String.eqb_refl.
    + destruct Hwf as [Hown Hnd]. split; [by apply own_keys_put|].
      apply NoDup_values_put; [done|]. simpl.
      intros (s & [= Hm Hd] & Hs)%list_elem_of_fmap.
      pose proof (join_existing_None _ _ _ _ s Hjoin Hs) as Hno.
      assert (matches m d s = true) as Hyes by by apply matches_true.
      congruence.
Qed.

Lemma JOIN_SESSION_existing ws clients env m d reg k s :
  wf_sessions reg → get reg k = Some s → matches m d s = true →
  JOIN_SESSION ws clients env m d reg
  = (put k (add_player ws s) reg, Some (session_id s),
     (ws, SESSION_JOINED (summary (add_player ws s)) (config s)
            (Server.pieceStates (core s)))
     :: broadcastList clients (put k (add_player ws s) reg)).
Proof.
  intros Hwf Hget Hm. unfold JOIN_SESSION.
  by rewrite (join_existing_get ws m d reg k s).
Qed.

Lemma on_intent_joined ws msg reg k s :
  k ≠ "" → get reg k = Some s →
  (on_intent ws msg reg (Some k)).1
  = put k (with_core (Server.handle ws msg (core s)).1 s) reg.
Proof.
  intros Hk Hget. unfold on_intent. simpl.
  destruct (String.eqb_spec k ""); [done|]. simpl. by rewrite Hget.
Qed.

Lemma get_Some_keys {V} (o : list (string * V)) k v :
  get o k = Some v → k ∈ keys o.
Proof.
  intros Hget. apply dec_stable. intros Hk%get_None_keys.
  by rewrite Hk in Hget.
Qed.

Lemma on_intents_joined ws msgs reg k s :
  k ≠ "" → wf_sessions reg → get reg k = Some s →
  wf_sessions (on_intents ws msgs reg (Some k))
  ∧ keys (on_intents ws msgs reg (Some k)) = keys reg
  ∧ get (on_intents ws msgs reg (Some k)) k
    = Some (with_core (run (pair ws <$> msgs) (core s)) s).
Proof.
  intros Hk. unfold on_intents, run. revert reg s.
  induction msgs as [|msg msgs IH]; intros reg s Hwf Hget; simpl.
  - split_and!; [done..|]. rewrite Hget. by destruct s.
  - rewrite (on_intent_joined ws msg reg k s) by done.
    destruct (IH (put k (with_core (Server.handle ws msg (core s)).1 s) reg)
                (with_core (Server.handle ws msg (core s)).1 s))
      as (Hwf' & Hkeys' & Hget').
    + by apply (wf_sessions_put k s).
    + apply get_put_eq.
    + split_and!; [done| |by rewrite Hget'].
      rewrite Hkeys'. apply keys_put_present. by apply (get_Some_keys _ _ s).
Qed.

Lemma handleDisconnect_joined ws clients reg k s :
  k ≠ "" → get reg k = Some s →
  (handleDisconnect ws clients reg (Some k)).1
  = (put k (delete_player ws s) reg, None).
Proof.
  intros Hk Hget. unfold handleDisconnect. simpl.
  destruct (String.eqb_spec k ""); [done|]. simpl. by rewrite Hget.
Qed.
End RegistryFacts.

(** X12: the registry stays well formed under every handler: each
    session is stored under its own id, and there is never more than one
    session for a map and a difficulty, also when a generated id collides
    with the id of a stored session. *)
Theorem registry_invariant (ws : Server.Conn) (clients : list Server.Conn)
    (env : Registry.Fresh) (m d : string) (msg : ClientMessage)
    (reg : Registry.Sessions) (currentSessionId : option string) :
  Registry.wf_sessions reg →
  Registry.wf_sessions (Registry.JOIN_SESSION ws clients env m d reg).1.1
  ∧ Registry.wf_sessions (Registry.on_intent ws msg reg currentSessionId).1
  ∧ Registry.wf_sessions
      (Registry.handleDisconnect ws clients reg currentSessionId).1.1.
Proof.
  intros Hwf. split_and!.
  - by destruct (JOIN_SESSION_joined ws clients env m d reg Hwf)
      as (k & s & _ & _ & _ & _ & Hwf' & _).
  - unfold Registry.on_intent.
    destruct (truthy currentSessionId); [|done].
    destruct currentSessionId as [k|]; [|done]. simpl.
    destruct (get reg k) as [s|] eqn:Hget; [|done]. simpl.
    by apply (wf_sessions_put k s).
  - unfold Registry.handleDisconnect.
    destruct (truthy currentSessionId); [|done].
    destruct currentSessionId as [k|]; [|done]. simpl.
    destruct (get reg k) as [s|] eqn:Hget; [|done]. simpl.
    by apply (wf_sessions_put k s).
Qed.

Lemma registry_invariant_witness :
  Registry.wf_sessions
    (Registry.JOIN_SESSION Examples.alice [Examples.alice; Examples.bob]
       (Registry.mkFresh "s1" (Registry.mkSessionConfig 1 [1%float]) 0)
       "mercury_beethoven" "easy" []).1.1.
Proof.
  apply (registry_invariant Examples.alice [Examples.alice; Examples.bob]
           (Registry.mkFresh "s1" (Registry.mkSessionConfig 1 [1%float]) 0)
           "mercury_beethoven" "easy" (MOVE_PIECE "P1" (mkVec3 0 0 0)) [] None).
  split; [split; [apply NoDup_nil_2|apply Forall_nil_2]|apply NoDup_nil_2].
Defined.

(** X13: a disconnect evicts nothing: every session stays in the
    registry under its key with its id, map, difficulty, config and piece
    states, its players can only shrink, and when the connection was in a
    session it is no longer among that session's players and its
    [currentSessionId] is reset. *)
Theorem disconnect_retains_sessions (ws : Server.Conn)
    (clients : list Server.Conn) (reg : Registry.Sessions)
    (currentSessionId : option string) (k : string)
    (s : Registry.SessionData) :
  get reg k = Some s →
  let after := Registry.handleDisconnect ws clients reg currentSessionId in
  keys after.1.1 = keys reg
  ∧ ∃ s', get after.1.1 k = Some s'
      ∧ Registry.session_id s' = Registry.session_id s
      ∧ Registry.mapId s' = Registry.mapId s
      ∧ Registry.difficulty s' = Registry.difficulty s
      ∧ Registry.config s' = Registry.config s
      ∧ Server.pieceStates (Registry.core s')
        = Server.pieceStates (Registry.core s)
      ∧ (∀ client, client ∈ Server.players (Registry.core s') →
           client ∈ Server.players (Registry.core s))
      ∧ (currentSessionId = Some k → k ≠ "" →
           after.1.2 = None
           ∧ ∀ client, client ∈ Server.players (Registry.core s') →
               Server.same_conn client ws = false).
Proof.
  intros Hget. simpl. unfold Registry.handleDisconnect.
  destruct currentSessionId as [k0|]; simpl.
  2: { split; [done|]. exists s. by split_and!. }
  destruct (String.eqb_spec k0 "") as [->|Hk0]; simpl.
  { split; [done|]. exists s. split_and!; try done. by intros [= <-] ?. }
  destruct (get reg k0) as [s0|] eqn:Hget0; simpl.
  - split; [apply keys_put_present; by apply (get_Some_keys _ _ s0)|].
    destruct (decide (k0 = k)) as [->|Hne].
    + rewrite get_put_eq. assert (s0 = s) as -> by congruence.
      eexists. split; [done|]. simpl. split_and!; try done.
      * by intros client [_ ?]%list_elem_of_filter.
      * intros _ _. split; [done|].
        by intros client [? _]%list_elem_of_filter.
    + rewrite get_put_ne by done. exists s. split_and!; try done.
      by intros [= ?].
  - split; [done|]. exists s. split_and!; try done.
    intros [= ->]. congruence.
Qed.

Lemma disconnect_retains_sessions_witness :
  let reg :=
    (Registry.JOIN_SESSION Examples.alice [Examples.alice]
       (Registry.mkFresh "s1" (Registry.mkSessionConfig 1 [1%float]) 0)
       "mercury_beethoven" "easy" []).1.1 in
  keys (Registry.handleDisconnect Examples.alice [Examples.alice] reg
          (Some "s1")).1.1 = ["s1"].
Proof.
  intros reg.
  apply (disconnect_retains_sessions Examples.alice [Examples.alice] reg
           (Some "s1") "s1"
           (Registry.add_player Examples.alice
              (Registry.mkSessionData "s1" "mercury_beethoven" "easy"
                 (Server.mkSession [] [])
                 (Registry.mkSessionConfig 1 [1%float]) 0 "active"))).
  reflexivity.
Defined.

(** X14: rejoin recovers the state.  In a well-formed registry whose ids
    are nonempty, let a connection join the session of a map and a
    difficulty (created if there is none), send any intents and
    disconnect; a connection that then joins the same map and difficulty
    is put in the same session, no session being created, and its
    [SESSION_JOINED] carries the session's config and the piece states as
    the intents left them. *)
Theorem rejoin_recovers_state (a b : Server.Conn)
    (clients1 clients2 clients3 : list Server.Conn)
    (env1 env2 : Registry.Fresh) (m d : string)
    (reg : Registry.Sessions) (msgs : list ClientMessage) :
  Registry.wf_sessions reg →
  (∀ k, k ∈ keys reg → k ≠ "") →
  Registry.fresh_id env1 ≠ "" →
  let j1 := Registry.JOIN_SESSION a clients1 env1 m d reg in
  let reg2 := Registry.on_intents a msgs j1.1.1 j1.1.2 in
  let gone := Registry.handleDisconnect a clients2 reg2 j1.1.2 in
  let j2 := Registry.JOIN_SESSION b clients3 env2 m d gone.1.1 in
  ∃ s1,
    head j1.2
    = Some (a, Registry.SESSION_JOINED (Registry.summary s1)
                 (Registry.config s1)
                 (Server.pieceStates (Registry.core s1)))
    ∧ gone.1.2 = None
    ∧ j2.1.2 = j1.1.2
    ∧ keys j2.1.1 = keys j1.1.1
    ∧ ∃ status,
        head j2.2
        = Some (b, Registry.SESSION_JOINED status (Registry.config s1)
                     (Server.pieceStates
                        (Registry.run (pair a <$> msgs) (Registry.core s1)))).
Proof.
  intros Hwf Hkeys Hfresh j1 reg2 gone j2.
  destruct (JOIN_SESSION_joined a clients1 env1 m d reg Hwf)
    as (k & s1 & Hcur & Hget1 & Hk & Hm & Hwf1 & Hhead).
  fold j1 in Hcur, Hget1, Hwf1, Hhead. clearbody j1.
  assert (k ≠ "") as Hne by (destruct Hk as [?| ->]; auto).
  assert (Registry.session_id s1 = k) as Hid
    by by apply (own_keys_get Registry.session_id _ _ _ (proj1 Hwf1)).
  destruct (on_intents_joined a msgs j1.1.1 k s1 Hne Hwf1 Hget1)
    as (Hwf2 & Hkeys2 & Hget2).
  rewrite <- Hcur in Hwf2, Hkeys2, Hget2. fold reg2 in Hwf2, Hkeys2, Hget2.
  clearbody reg2.
  assert (gone.1 = (put k (Registry.delete_player a
                             (Registry.with_core
                                (Registry.run (pair a <$> msgs)
                                   (Registry.core s1)) s1)) reg2, None))
    as Hgone.
  { subst gone. rewrite Hcur. by apply handleDisconnect_joined. }
  clearbody gone. destruct gone as [[reg3 cur3] out3]. simpl in Hgone.
  injection Hgone as -> ->.
  subst j2. cbn [fst snd].
  rewrite (JOIN_SESSION_existing b clients3 env2 m d _ k
             (Registry.delete_player a
                (Registry.with_core
                   (Registry.run (pair a <$> msgs) (Registry.core s1)) s1))).
  - exists s1. simpl. split_and!; [done|done|by rewrite Hcur, Hid| |eauto].
    rewrite !keys_put_present; [done| |].
    + by apply (get_Some_keys _ _ _ Hget2).
    + rewrite keys_put_present; by apply (get_Some_keys _ _ _ Hget2).
  - by apply (wf_sessions_put k _ _ _ Hwf2 Hget2).
  - apply get_put_eq.
  - apply matches_true in Hm as [<- <-]. by apply matches_true.
Qed.

Lemma rejoin_recovers_state_witness :
  let env := Registry.mkFresh "s1" (Registry.mkSessionConfig 1 [1%float]) 0 in
  let j1 :=
    Registry.JOIN_SESSION Examples.alice [Examples.alice] env
      "mercury_beethoven" "easy" [] in
  let reg2 :=
    Registry.on_intents Examples.alice
      [MOVE_PIECE "P1" (mkVec3 1 2 3); MOVE_PIECE "P2" (mkVec3 4 5 6);
       MERGE_GROUP "P2" "P1" (mkVec3 1 0 0)] j1.1.1 j1.1.2 in
  let gone := Registry.handleDisconnect Examples.alice [] reg2 j1.1.2 in
  let j2 :=
    Registry.JOIN_SESSION Examples.bob [Examples.bob] env
      "mercury_beethoven" "easy" gone.1.1 in
  ∃ status cfg,
    head j2.2
    = Some (Examples.bob,
            Registry.SESSION_JOINED status cfg
              [("P1", Examples.piece "P1" "P1" 1 2 3);
               ("P2", Examples.piece "P2" "P1" 5 5 6)]).
Proof.
  cbv zeta.
  destruct (rejoin_recovers_state Examples.alice Examples.bob
              [Examples.alice] [] [Examples.bob]
              (Registry.mkFresh "s1" (Registry.mkSessionConfig 1 [1%float]) 0)
              (Registry.mkFresh "s1" (Registry.mkSessionConfig 1 [1%float]) 0)
              "mercury_beethoven" "easy" []
              [MOVE_PIECE "P1" (mkVec3 1 2 3); MOVE_PIECE "P2" (mkVec3 4 5 6);
               MERGE_GROUP "P2" "P1" (mkVec3 1 0 0)])
    as (s1 & Hjoin & _ & _ & _ & status & Hhead).
  - split; [split; [apply NoDup_nil_2|apply Forall_nil_2]|apply NoDup_nil_2].
  - intros k Hk. by apply elem_of_nil in Hk.
  - discriminate.
  - injection Hjoin as Hs1 Hcfg Hstates.
    exists status, (Registry.config s1). rewrite Hhead. do 3 f_equal.
    destruct s1 as [? ? ? [pl st] ? ? ?]. simpl in *. subst.
    by vm_compute.
Defined.

Section IsolationFacts.
Context {V : Type}.
Implicit Types (o : list (string * V)) (k : string) (v : V).

Lemma put_put o k v w : put k v (put k w o) = put k v o.
Proof.
  induction o as [|[k' v'] o IH]; simpl.
  - by rewrite decide_True.
  - destruct (decide (k = k')) as [->|Hne]; simpl.
    + by rewrite decide_True.
    + rewrite decide_False by done. by rewrite IH.
Qed.
End IsolationFacts.

(** X15: sessions are isolated: an intent changes no session but the
    sender's current one, adds or removes no session, and its delta goes
    only to open connections that are players of that session; an intent
    from a connection that has joined no session, or whose session id is
    unknown, changes nothing and sends nothing. *)
Theorem intents_stay_in_session (ws : Server.Conn) (msg : ClientMessage)
    (reg : Registry.Sessions) (currentSessionId : option string) :
  let r := Registry.on_intent ws msg reg currentSessionId in
  keys r.1 = keys reg
  ∧ (∀ k, currentSessionId ≠ Some k → get r.1 k = get reg k)
  ∧ (∀ client m, (client, m) ∈ r.2 →
       ∃ k s delta,
         currentSessionId = Some k ∧ get reg k = Some s
         ∧ client ∈ Server.players (Registry.core s)
         ∧ Server.is_open client = true
         ∧ m = Registry.DELTA delta)
  ∧ (currentSessionId ≫= get reg = None → r = (reg, [])).
Proof.
  simpl. unfold Registry.on_intent.
  destruct currentSessionId as [k0|]; simpl.
  2: { split_and!; try done. intros client m Hin. by apply elem_of_nil in Hin. }
  destruct (String.eqb_spec k0 "") as [->|Hk0]; simpl.
  { split_and!; try done. intros client m Hin. by apply elem_of_nil in Hin. }
  destruct (get reg k0) as [s|] eqn:Hget; simpl.
  - split_and!; [|intros k Hk; apply get_put_ne; congruence| |done].
    + apply keys_put_present. by apply (get_Some_keys _ _ s).
    + intros client m ([cl dm] & [= -> ->] & Hin)%list_elem_of_fmap. simpl.
      exists k0, s, dm. split_and!; try done.
      * destruct msg as [pieceId pos|a b off].
        -- by apply move_piece_recipients in Hin as (? & _).
        -- by apply merge_group_recipients in Hin as (? & _).
      * destruct msg as [pieceId pos|a b off].
        -- by apply move_piece_recipients in Hin as (_ & _ & ? & _).
        -- by apply merge_group_recipients in Hin as (_ & ? & _).
  - split_and!; try done. intros client m Hin. by apply elem_of_nil in Hin.
Qed.

Lemma intents_stay_in_session_witness :
  Registry.on_intent Examples.alice (MOVE_PIECE "P1" (mkVec3 1 2 3))
    [("s1", Registry.mkSessionData "s1" "mercury_beethoven" "easy"
              (Server.mkSession [Examples.alice] Examples.two)
              (Registry.mkSessionConfig 1 [1%float]) 0 "active")]
    (Some "s2")
  = ([("s1", Registry.mkSessionData "s1" "mercury_beethoven" "easy"
               (Server.mkSession [Examples.alice] Examples.two)
               (Registry.mkSessionConfig 1 [1%float]) 0 "active")], []).
Proof.
  apply (intents_stay_in_session Examples.alice
           (MOVE_PIECE "P1" (mkVec3 1 2 3))
           [("s1", Registry.mkSessionData "s1" "mercury_beethoven" "easy"
                     (Server.mkSession [Examples.alice] Examples.two)
                     (Registry.mkSessionConfig 1 [1%float]) 0 "active")]
           (Some "s2")).
  reflexivity.
Defined.

(** X16: last writer wins: of two [MOVE_PIECE] intents for the same
    piece, from any two connections, only the later one shows in the
    store; the piece states are those the later intent alone would have
    given. *)
Theorem move_piece_last_writer_wins (ws1 ws2 : Server.Conn)
    (s : Server.Session) (pieceId : string) (pos1 pos2 : Vec3) :
  Server.pieceStates
    (Server.handle ws2 (MOVE_PIECE pieceId pos2)
       (Server.handle ws1 (MOVE_PIECE pieceId pos1) s).1).1
  = Server.pieceStates (Server.handle ws2 (MOVE_PIECE pieceId pos2) s).1.
Proof.
  simpl. unfold Server.move_piece, Server.moved_state.
  destruct (get (Server.pieceStates s) pieceId) as [p|] eqn:Hp.
  - by rewrite get_put_eq, put_put.
  - destruct (inherited pieceId); [by rewrite Hp|].
    by rewrite get_put_eq, put_put.
Qed.



(* ================================================================== *)
(** ** Further properties: colours *)
(* ================================================================== *)

Section HexFacts.
Import ImageProcessor.
Local Open Scope Z_scope.

Lemma shl_small (x n : Z) :
  0 ≤ x → 0 ≤ n → x * 2 ^ n < 2147483648 → shl x n = x * 2 ^ n.
Proof.
  intros Hx Hn Hlt. unfold shl, int32.
  assert (x < 2147483648) as Hx'.
  { assert (1 ≤ 2 ^ n) by (apply Z.pow_le_mono_r with (b := 0); lia). nia. }
  rewrite (Z.mod_small (x + 2147483648)) by lia.
  replace (x + 2147483648 - 2147483648) with x by lia.
  rewrite Z.shiftl_mul_pow2 by done.
  rewrite Z.mod_small by lia. lia.
Qed.

Lemma hex_digits_nibble (fuel : nat) (q d : Z) (acc : string) :
  0 ≤ d < 16 → 0 ≤ q → 0 < 16 * q + d →
  hex_digits (S fuel) (16 * q + d) acc
  = hex_digits fuel q (String (hex_digit d) acc).
Proof.
  intros Hd Hq Hpos. simpl.
  destruct (Z.eqb_spec (16 * q + d) 0); [lia|].
  rewrite <- (Z.div_unique_pos (16 * q + d) 16 q d) by lia.
  by rewrite <- (Z.mod_unique_pos (16 * q + d) 16 q d) by lia.
Qed.

Lemma hex_digits_done (fuel : nat) (acc : string) :
  hex_digits fuel 0 acc = acc.
Proof. by destruct fuel. Qed.

Lemma byte_nibbles (x : Z) :
  0 ≤ x ≤ 255 →
  x = 16 * (x `div` 16) + x `mod` 16
  ∧ 0 ≤ x `div` 16 < 16 ∧ 0 ≤ x `mod` 16 < 16.
Proof.
  intros Hx. pose proof (Z.div_mod x 16 ltac:(lia)).
  pose proof (Z.mod_pos_bound x 16 ltac:(lia)). lia.
Qed.

Lemma hex_digit_inj (d e : Z) :
  0 ≤ d < 16 → 0 ≤ e < 16 → hex_digit d = hex_digit e → d = e.
Proof.
  intros Hd He.
  assert (d = 0 ∨ d = 1 ∨ d = 2 ∨ d = 3 ∨ d = 4 ∨ d = 5 ∨ d = 6 ∨ d = 7
          ∨ d = 8 ∨ d = 9 ∨ d = 10 ∨ d = 11 ∨ d = 12 ∨ d = 13 ∨ d = 14
          ∨ d = 15) as Hd' by lia.
  assert (e = 0 ∨ e = 1 ∨ e = 2 ∨ e = 3 ∨ e = 4 ∨ e = 5 ∨ e = 6 ∨ e = 7
          ∨ e = 8 ∨ e = 9 ∨ e = 10 ∨ e = 11 ∨ e = 12 ∨ e = 13 ∨ e = 14
          ∨ e = 15) as He' by lia.
  clear Hd He.
  repeat (destruct Hd' as [->|Hd']); try subst d;
    repeat (destruct He' as [->|He']); try subst e;
    vm_compute; congruence.
Qed.

Lemma two_digits_inj (x y : Z) :
  0 ≤ x ≤ 255 → 0 ≤ y ≤ 255 → two_digits x = two_digits y → x = y.
Proof.
  intros Hx Hy. unfold two_digits. intros [= Hh Hl].
  destruct (byte_nibbles x Hx) as (Ex & ? & ?).
  destruct (byte_nibbles y Hy) as (Ey & ? & ?).
  apply hex_digit_inj in Hh; [|done..].
  apply hex_digit_inj in Hl; [|done..]. lia.
Qed.

Lemma rgbToHex_bytes (r g b : Z) :
  0 ≤ r ≤ 255 → 0 ≤ g ≤ 255 → 0 ≤ b ≤ 255 →
  rgbToHex r g b
  = String "#" (two_digits r +:+ two_digits g +:+ two_digits b).
Proof.
  intros Hr Hg Hb. unfold rgbToHex.
  rewrite (shl_small 1 24), (shl_small r 16), (shl_small g 8) by lia.
  unfold two_digits.
  destruct (byte_nibbles r Hr) as (Er & ? & ?).
  destruct (byte_nibbles g Hg) as (Eg & ? & ?).
  destruct (byte_nibbles b Hb) as (Eb & ? & ?).
  set (rh := r `div` 16) in *. set (rl := r `mod` 16) in *.
  set (gh := g `div` 16) in *. set (gl := g `mod` 16) in *.
  set (bh := b `div` 16) in *. set (bl := b `mod` 16) in *.
  clearbody rh rl gh gl bh bl. subst r g b.
  set (n := 1 * 2 ^ 24 + (16 * rh + rl) * 2 ^ 16 + (16 * gh + gl) * 2 ^ 8
            + (16 * bh + bl)).
  assert (16777216 ≤ n < 33554432) as Hn by (subst n; lia).
  unfold toString16.
  destruct (Z.eqb_spec n 0); [lia|]. destruct (Z.ltb_spec n 0); [lia|].
  rewrite (Z.log2_unique n 24) by lia.
  change (S (Z.to_nat 24)) with (S (S (S (S (S (S (S 18))))))).
  replace n with (16 * (1048576 + rh * 65536 + rl * 4096 + gh * 256
                        + gl * 16 + bh) + bl) by (subst n; lia).
  rewrite hex_digits_nibble by lia.
  replace (1048576 + rh * 65536 + rl * 4096 + gh * 256 + gl * 16 + bh)
    with (16 * (65536 + rh * 4096 + rl * 256 + gh * 16 + gl) + bh) by lia.
  rewrite hex_digits_nibble by lia.
  replace (65536 + rh * 4096 + rl * 256 + gh * 16 + gl)
    with (16 * (4096 + rh * 256 + rl * 16 + gh) + gl) by lia.
  rewrite hex_digits_nibble by lia.
  replace (4096 + rh * 256 + rl * 16 + gh)
    with (16 * (256 + rh * 16 + rl) + gh) by lia.
  rewrite hex_digits_nibble by lia.
  replace (256 + rh * 16 + rl) with (16 * (16 + rh) + rl) by lia.
  rewrite hex_digits_nibble by lia.
  replace (16 + rh) with (16 * 1 + rh) by lia.
  rewrite hex_digits_nibble by lia.
  replace 1 with (16 * 0 + 1) at 1 by lia.
  rewrite hex_digits_nibble by lia.
  by rewrite hex_digits_done.
Qed.
End HexFacts.

(** X17: for channels that are bytes, [rgbToHex] yields ["#"] followed by
    the two zero-padded hexadecimal digits of each channel, seven
    characters in all, and distinct colours get distinct strings. *)
Theorem rgbToHex_format (r g b : Z) :
  (0 ≤ r ≤ 255)%Z → (0 ≤ g ≤ 255)%Z → (0 ≤ b ≤ 255)%Z →
  ImageProcessor.rgbToHex r g b
  = String "#"
      (ImageProcessor.two_digits r +:+ ImageProcessor.two_digits g
       +:+ ImageProcessor.two_digits b)
  ∧ String.length (ImageProcessor.rgbToHex r g b) = 7
  ∧ ∀ r' g' b',
      (0 ≤ r' ≤ 255)%Z → (0 ≤ g' ≤ 255)%Z → (0 ≤ b' ≤ 255)%Z →
      ImageProcessor.rgbToHex r g b = ImageProcessor.rgbToHex r' g' b' →
      r = r' ∧ g = g' ∧ b = b'.
Proof.
  intros Hr Hg Hb. rewrite rgbToHex_bytes by done. split_and!; [done..|].
  intros r' g' b' Hr' Hg' Hb'. rewrite rgbToHex_bytes by done.
  unfold ImageProcessor.two_digits. simpl.
  intros [= H1 H2 H3 H4 H5 H6].
  split_and!; apply two_digits_inj; try done;
    unfold ImageProcessor.two_digits; congruence.
Qed.

Lemma rgbToHex_format_witness :
  ImageProcessor.rgbToHex 239 68 68 = "#ef4444".
Proof.
  rewrite (proj1 (rgbToHex_format 239 68 68 ltac:(lia) ltac:(lia) ltac:(lia))).
  reflexivity.
Defined.
